(** * tailwind-prefix-bot: the class rewriter and its extractors

    A shallow embedding of the [TailwindPrefixBot] class (index.js): the
    classifier [isNotTailwindClass], the rewriter [addPrefixToClass], the
    four extractors ([processHtmlClasses], [processCssSelectors],
    [processApplyDirectives], [processJsClasses]) and [validateOptions].

    JavaScript strings are sequences of UTF-16 code units; regular
    expression literals are kept as syntax trees and run by a backtracking
    matcher that follows the ECMAScript matching order (left alternative
    first, greedy quantifiers, continuation on failure). *)

From Stdlib Require Import String Ascii Bool Arith NArith ZArith Lia List.
Import ListNotations.

(** ** Strings *)

(** A code unit, and a string as the list of its code units. *)
Definition char := N.
Definition jstring := list char.

(** The code units of an ASCII literal. *)
Definition str (s : string) : jstring :=
  map N_of_ascii (list_ascii_of_string s).

Definition ch_bang : char := 33%N.      (* ! *)
Definition ch_dquote : char := 34%N.
Definition ch_dollar : char := 36%N.    (* $ *)
Definition ch_amp : char := 38%N.       (* & *)
Definition ch_squote : char := 39%N.    (* ' *)
Definition ch_comma : char := 44%N.     (* , *)
Definition ch_hyphen : char := 45%N.    (* - *)
Definition ch_dot : char := 46%N.       (* . *)
Definition ch_colon : char := 58%N.     (* : *)
Definition ch_semi : char := 59%N.      (* ; *)
Definition ch_eq : char := 61%N.        (* = *)
Definition ch_lbracket : char := 91%N.  (* [ *)
Definition ch_backslash : char := 92%N.
Definition ch_underscore : char := 95%N.
Definition ch_backtick : char := 96%N.
Definition ch_lbrace : char := 123%N.   (* { *)
Definition ch_rbrace : char := 125%N.   (* } *)
Definition ch_space : char := 32%N.

Definition in_range (lo hi c : char) : bool := ((lo <=? c) && (c <=? hi))%N.
Arguments in_range (lo hi c)%_N.

Definition is_lower (c : char) : bool := in_range 97 122 c.   (* [a-z] *)
Definition is_upper (c : char) : bool := in_range 65 90 c.    (* [A-Z] *)
Definition is_digit (c : char) : bool := in_range 48 57 c.    (* \d *)

(** [[a-zA-Z0-9_-]] *)
Definition is_ident (c : char) : bool :=
  is_lower c || is_upper c || is_digit c
  || (c =? ch_underscore)%N || (c =? ch_hyphen)%N.

(** LineTerminator: LF, CR, LS, PS. *)
Definition is_line_terminator (c : char) : bool :=
  ((c =? 10) || (c =? 13) || (c =? 0x2028) || (c =? 0x2029))%N.

(** [\s]: WhiteSpace and LineTerminator. *)
Definition is_space (c : char) : bool :=
  ((c =? 9) || (c =? 11) || (c =? 12) || (c =? 32) || (c =? 0xA0)
   || (c =? 0x1680) || in_range 0x2000 0x200A c || (c =? 0x202F)
   || (c =? 0x205F) || (c =? 0x3000) || (c =? 0xFEFF))%N
  || is_line_terminator c.

Fixpoint jstring_eqb (a b : jstring) : bool :=
  match a, b with
  | [], [] => true
  | x :: a', y :: b' => (x =? y)%N && jstring_eqb a' b'
  | _, _ => false
  end.

(** [s.startsWith(pat)] *)
Fixpoint startsWith (s pat : jstring) {struct pat} : bool :=
  match pat, s with
  | [], _ => true
  | p :: pat', c :: s' => (c =? p)%N && startsWith s' pat'
  | _ :: _, [] => false
  end.

(** [s.includes(pat)] *)
Fixpoint includes (s pat : jstring) : bool :=
  startsWith s pat ||
  match s with
  | [] => false
  | _ :: s' => includes s' pat
  end.

(** [arr.includes(x)] on an array of strings. *)
Definition array_includes (arr : list jstring) (x : jstring) : bool :=
  existsb (jstring_eqb x) arr.

(** [s.lastIndexOf(pat)]: the largest index at which [pat] occurs, else -1. *)
Fixpoint lastIndexOf_from (s pat : jstring) (i : Z) : Z :=
  let later :=
    match s with
    | [] => (-1)%Z
    | _ :: s' => lastIndexOf_from s' pat (i + 1)
    end in
  if (later =? -1)%Z then (if startsWith s pat then i else (-1)%Z) else later.

Definition lastIndexOf (s pat : jstring) : Z := lastIndexOf_from s pat 0.

(** [s.substring(from, to)], with both indices clamped to [0, length] and
    swapped when out of order; [to] absent means the length. *)
Definition clamp (len i : Z) : Z := Z.min (Z.max i 0) len.

Definition substring (s : jstring) (from : Z) (to : option Z) : jstring :=
  let len := Z.of_nat (length s) in
  let a := clamp len from in
  let b := match to with Some t => clamp len t | None => len end in
  let lo := Z.min a b in
  let hi := Z.max a b in
  firstn (Z.to_nat (hi - lo)) (skipn (Z.to_nat lo) s).

(** [arr.join(sep)] *)
Fixpoint join (sep : jstring) (arr : list jstring) : jstring :=
  match arr with
  | [] => []
  | [x] => x
  | x :: rest => x ++ sep ++ join sep rest
  end.

(** The text before and after the first occurrence of [pat] in [s]. *)
Fixpoint split_at_first (s pat : jstring) : option (jstring * jstring) :=
  if startsWith s pat then Some ([], skipn (length pat) s)
  else match s with
       | [] => None
       | c :: s' =>
           match split_at_first s' pat with
           | Some (pre, post) => Some (c :: pre, post)
           | None => None
           end
       end.

(** GetSubstitution for a string pattern (no capture groups): [$$] is a
    dollar sign, [$&] the matched text, [$`] the text before it, [$'] the
    text after it; any other [$] stands for itself. *)
Fixpoint get_substitution (matched pre post repl : jstring) : jstring :=
  match repl with
  | [] => []
  | c :: r =>
      if (c =? ch_dollar)%N then
        match r with
        | d :: r' =>
            if (d =? ch_dollar)%N then
              ch_dollar :: get_substitution matched pre post r'
            else if (d =? ch_amp)%N then
              matched ++ get_substitution matched pre post r'
            else if (d =? ch_backtick)%N then
              pre ++ get_substitution matched pre post r'
            else if (d =? ch_squote)%N then
              post ++ get_substitution matched pre post r'
            else ch_dollar :: get_substitution matched pre post r
        | [] => [ch_dollar]
        end
      else c :: get_substitution matched pre post r
  end.

(** [s.replace(pat, repl)] with a string pattern and a string replacement:
    only the first occurrence is replaced. *)
Definition string_replace (s pat repl : jstring) : jstring :=
  match split_at_first s pat with
  | None => s
  | Some (pre, post) => pre ++ get_substitution pat pre post repl ++ post
  end.

(** ** Regular expressions *)

Inductive regex : Type :=
| Empty
| Char (p : char -> bool)            (* a character class, a literal or [.] *)
| Seq (a b : regex)
| Alt (a b : regex)                  (* a|b, left first *)
| Star (a : regex)                   (* greedy a* *)
| Group (i : nat) (a : regex)        (* the i-th capturing group *)
| Assert (f : option char -> option char -> bool).
      (* zero-width assertion on the previous and the next code unit *)

Definition Plus (a : regex) : regex := Seq a (Star a).
Definition Opt (a : regex) : regex := Alt a Empty.

Definition lit_char (c : char) : regex := Char (N.eqb c).

(** With flag [i] a letter matches both of its cases. *)
Definition ci_char (c : char) : regex :=
  Char (fun x =>
          (x =? c)%N
          || (is_lower c && (x =? c - 32)%N)
          || (is_upper c && (x =? c + 32)%N)).

Fixpoint seq_of (l : list regex) : regex :=
  match l with
  | [] => Empty
  | [r] => r
  | r :: l' => Seq r (seq_of l')
  end.

Definition lit (s : jstring) : regex := seq_of (map lit_char s).
Definition lit_ci (s : jstring) : regex := seq_of (map ci_char s).

(** [.] without flag [s], and with it. *)
Definition dot : regex := Char (fun c => negb (is_line_terminator c)).
Definition dot_all : regex := Char (fun _ => true).

(** [^] and [$] without flag [m]; [^] with it. *)
Definition bol : regex := Assert (fun prev _ => match prev with None => true | Some _ => false end).
Definition eol : regex := Assert (fun _ next => match next with None => true | Some _ => false end).
Definition at_line_start (prev : option char) : bool :=
  match prev with None => true | Some c => is_line_terminator c end.

(** Matcher state: the code unit before the current position, the rest of
    the input, and the captures recorded so far (latest first). *)
Record mstate : Type := MState {
  m_prev : option char;
  m_rest : jstring;
  m_caps : list (nat * jstring)
}.

Definition consumed (s s' : mstate) : jstring :=
  firstn (length (m_rest s) - length (m_rest s')) (m_rest s).

(** Greedy iteration: an iteration that consumes nothing is rejected. *)
Fixpoint star_loop (body : mstate -> (mstate -> option mstate) -> option mstate)
    (k : mstate -> option mstate) (fuel : nat) (s : mstate) : option mstate :=
  match fuel with
  | 0 => k s
  | S fuel' =>
      match body s (fun s' =>
                      if length (m_rest s') <? length (m_rest s)
                      then star_loop body k fuel' s' else None) with
      | Some f => Some f
      | None => k s
      end
  end.

(** The backtracking matcher, in continuation-passing style. *)
Fixpoint rmatch (r : regex) (s : mstate) (k : mstate -> option mstate)
    {struct r} : option mstate :=
  match r with
  | Empty => k s
  | Char p =>
      match m_rest s with
      | c :: rest => if p c then k (MState (Some c) rest (m_caps s)) else None
      | [] => None
      end
  | Seq a b => rmatch a s (fun s' => rmatch b s' k)
  | Alt a b =>
      match rmatch a s k with
      | Some f => Some f
      | None => rmatch b s k
      end
  | Star a => star_loop (rmatch a) k (length (m_rest s)) s
  | Group i a =>
      rmatch a s (fun s' =>
        k (MState (m_prev s') (m_rest s') ((i, consumed s s') :: m_caps s')))
  | Assert f => if f (m_prev s) (hd_error (m_rest s)) then k s else None
  end.

(** One match attempt at the current position: the length of the match
    and its captures. *)
Definition exec_at (r : regex) (prev : option char) (s : jstring)
  : option (nat * list (nat * jstring)) :=
  match rmatch r (MState prev s []) Some with
  | Some f => Some (length s - length (m_rest f), m_caps f)
  | None => None
  end.

Fixpoint capture (i : nat) (caps : list (nat * jstring)) : option jstring :=
  match caps with
  | [] => None
  | (j, w) :: caps' => if j =? i then Some w else capture i caps'
  end.

(** The leftmost match: the text before it, the matched text, its captures
    and the text after it. *)
Fixpoint search (r : regex) (prev : option char) (s : jstring)
  : option (jstring * jstring * list (nat * jstring) * jstring) :=
  match exec_at r prev s with
  | Some (len, caps) => Some ([], firstn len s, caps, skipn len s)
  | None =>
      match s with
      | [] => None
      | c :: s' =>
          match search r (Some c) s' with
          | Some (pre, m, caps, post) => Some (c :: pre, m, caps, post)
          | None => None
          end
      end
  end.

(** [re.test(s)] *)
Definition re_test (r : regex) (s : jstring) : bool :=
  match search r None s with Some _ => true | None => false end.

(** [s.match(re)] for a pattern without flag [g], read through its first
    two groups. *)
Definition re_match2 (r : regex) (s : jstring) : option (jstring * jstring) :=
  match search r None s with
  | Some (_, _, caps, _) =>
      match capture 1 caps, capture 2 caps with
      | Some g1, Some g2 => Some (g1, g2)
      | _, _ => None
      end
  | None => None
  end.

(** [s.replace(re, repl)] for a pattern without flag [g] and a replacement
    text without substitution patterns. *)
Definition re_replace_first (r : regex) (s repl : jstring) : jstring :=
  match search r None s with
  | Some (pre, _, _, post) => pre ++ repl ++ post
  | None => s
  end.

(** A global replace first collects the successive matches, then rebuilds
    the text: the input is cut into code units left alone and matched
    regions. *)
Inductive chunk : Type :=
| Lit (c : char)
| Hit (matched : jstring) (caps : list (nat * jstring)).


(** [skip] counts the code units of the current match still to pass over.
    After an empty match the next attempt starts one code unit later. *)
Fixpoint scan (r : regex) (prev : option char) (s : jstring) (skip : nat)
  : list chunk :=
  match s with
  | [] =>
      match skip with
      | 0 =>
          match exec_at r prev [] with
          | Some (_, caps) => [Hit [] caps]
          | None => []
          end
      | S _ => []
      end
  | c :: s' =>
      match skip with
      | S n => scan r (Some c) s' n
      | 0 =>
          match exec_at r prev s with
          | Some (0, caps) => Hit [] caps :: Lit c :: scan r (Some c) s' 0
          | Some (S n, caps) => Hit (firstn (S n) s) caps :: scan r (Some c) s' n
          | None => Lit c :: scan r (Some c) s' 0
          end
      end
  end.

Definition matches (r : regex) (s : jstring) : list chunk := scan r None s 0.

(** [s.replace(re, callback)] with flag [g]; the callback receives the
    matched text and the first capture. *)
Definition first_capture (caps : list (nat * jstring)) : jstring :=
  match capture 1 caps with Some w => w | None => [] end.

Definition render (f : jstring -> jstring -> jstring) (c : chunk) : jstring :=
  match c with
  | Lit x => [x]
  | Hit m caps => f m (first_capture caps)
  end.

Definition replace_all (r : regex) (f : jstring -> jstring -> jstring)
    (s : jstring) : jstring :=
  flat_map (render f) (matches r s).

(** [s.split(re)] for a pattern without groups. [acc] is the current piece,
    reversed; an empty match at the start of a piece is passed over. *)
Fixpoint split_go (r : regex) (prev : option char) (s : jstring)
    (acc : jstring) (skip : nat) : list jstring :=
  match s with
  | [] => [rev acc]
  | c :: s' =>
      match skip with
      | S n => split_go r (Some c) s' acc n
      | 0 =>
          match exec_at r prev s with
          | Some (0, _) =>
              match acc with
              | [] => split_go r (Some c) s' [c] 0
              | _ :: _ => rev acc :: split_go r (Some c) s' [c] 0
              end
          | Some (S n, _) => rev acc :: split_go r (Some c) s' [] n
          | None => split_go r (Some c) s' (c :: acc) 0
          end
      end
  end.

Definition re_split (r : regex) (s : jstring) : list jstring :=
  match s with
  | [] =>
      match exec_at r None [] with
      | Some _ => []
      | None => [[]]
      end
  | _ :: _ => split_go r None s [] 0
  end.

(** ** The patterns of the bot *)

Definition is_quote (c : char) : bool :=
  ((c =? ch_dquote) || (c =? ch_squote))%N.

(** [/[a-z][A-Z]/] *)
Definition re_camelCase : regex := Seq (Char is_lower) (Char is_upper).

(** [/^[A-Z]/] *)
Definition re_startsUpper : regex := Seq bol (Char is_upper).

(** [/^\d/] *)
Definition re_startsDigit : regex := Seq bol (Char is_digit).

Definition framework_prefixes : list jstring :=
  [str "ng-"; str "v-"; str "data-"; str "aria-"; str "role-"].

(** [/^(ng-|v-|data-|aria-|role-)/] *)
Definition re_framework : regex :=
  Seq bol
    (Group 1
       (Alt (lit (str "ng-"))
          (Alt (lit (str "v-"))
             (Alt (lit (str "data-"))
                (Alt (lit (str "aria-")) (lit (str "role-"))))))).

(** [/^(.*group-[^:]*:)(.+)$/] for the keyword [group-], and the same
    pattern for [peer-]. *)
Definition re_modifier (kw : jstring) : regex :=
  seq_of
    [ bol;
      Group 1
        (seq_of [ Star dot; lit kw;
                  Star (Char (fun c => negb (c =? ch_colon)%N));
                  lit_char ch_colon ]);
      Group 2 (Plus dot);
      eol ].

(** [/^[a-zA-Z0-9_-]+$/] *)
Definition re_prefixFormat : regex :=
  seq_of [ bol; Plus (Char is_ident); eol ].

(** [/-$/] *)
Definition re_trailingHyphen : regex := Seq (lit_char ch_hyphen) eol.

(** [/class\s*=\s*[Q]( [^Q]* (?: \\. [^Q]* )* )[Q]/gis], written here with
    spaces between its parts; [Q] stands for the double and the single
    quote. *)
Definition re_htmlClass : regex :=
  seq_of
    [ lit_ci (str "class"); Star (Char is_space); lit_char ch_eq;
      Star (Char is_space); Char is_quote;
      Group 1
        (Seq (Star (Char (fun c => negb (is_quote c))))
           (Star (seq_of [ lit_char ch_backslash; dot_all;
                           Star (Char (fun c => negb (is_quote c))) ])));
      Char is_quote ].

(** The lookbehind [(?<=^|[\s,{])] with flag [m]. *)
Definition selector_lookbehind (prev : option char) : bool :=
  at_line_start prev ||
  match prev with
  | Some c => is_space c || (c =? ch_comma)%N || (c =? ch_lbrace)%N
  | None => false
  end.

(** [/(?<=^|[\s,{])\.([a-zA-Z0-9_-]+)/gm] *)
Definition re_cssSelector : regex :=
  seq_of
    [ Assert (fun prev _ => selector_lookbehind prev);
      lit_char ch_dot;
      Group 1 (Plus (Char is_ident)) ].

(** [[^;{}]] *)
Definition not_terminator (c : char) : bool :=
  negb ((c =? ch_semi) || (c =? ch_lbrace) || (c =? ch_rbrace))%N.

(** [/@apply\s+([^;{}]+);?/gs] *)
Definition re_apply : regex :=
  seq_of
    [ lit (str "@apply"); Plus (Char is_space);
      Group 1 (Plus (Char not_terminator));
      Opt (lit_char ch_semi) ].

(** [/;;+/g] *)
Definition re_semicolons : regex :=
  Seq (lit_char ch_semi) (Plus (lit_char ch_semi)).

(** The classes of the next pattern: an opening brace or one of the three
    quotes (double, single, backtick); a closing brace or one of the three
    quotes; anything but the three quotes and the closing brace. *)
Definition js_open (c : char) : bool :=
  ((c =? ch_lbrace) || (c =? ch_dquote) || (c =? ch_squote) || (c =? ch_backtick))%N.
Definition js_close (c : char) : bool :=
  ((c =? ch_rbrace) || (c =? ch_dquote) || (c =? ch_squote) || (c =? ch_backtick))%N.
Definition js_inner (c : char) : bool :=
  negb ((c =? ch_dquote) || (c =? ch_squote) || (c =? ch_backtick) || (c =? ch_rbrace))%N.

(** [/className\s*=\s*[{Q]( [^Q}]* )[}Q]/gi], written here with spaces
    around the group; [Q] stands for the three quotes. *)
Definition re_jsClassName : regex :=
  seq_of
    [ lit_ci (str "className"); Star (Char is_space); lit_char ch_eq;
      Star (Char is_space); Char js_open;
      Group 1 (Star (Char js_inner));
      Char js_close ].

(** [/\s+/] *)
Definition re_whitespace : regex := Plus (Char is_space).

(** [/[\{\}]/] *)
Definition re_brace : regex :=
  Char (fun c => (c =? ch_lbrace)%N || (c =? ch_rbrace)%N).

(** ** The bot *)

Record stats : Type := Stats {
  filesProcessed : nat;
  filesChanged : nat;
  classesChanged : nat;
  errors : nat
}.

(** The fields of the instance that the rewriter and the extractors read
    or write. *)
Record TailwindPrefixBot : Type := Bot {
  prefix : jstring;
  ignoreClasses : list jstring;
  logLevel : jstring;
  botStats : stats
}.

(** Values an option can hold. *)
Inductive value : Type :=
| VUndefined
| VNull
| VBool (b : bool)
| VNumber (z : Z)
| VNaN
| VString (s : jstring)
| VObject.

Definition truthy (v : value) : bool :=
  match v with
  | VUndefined | VNull | VNaN => false
  | VBool b => b
  | VNumber z => negb (z =? 0)%Z
  | VString s => negb (length s =? 0)
  | VObject => true
  end.

(** [typeof v !== 'string'] *)
Definition not_a_string (v : value) : bool :=
  match v with
  | VString _ => false
  | _ => true
  end.

(** An options object, read through the fields the constructor uses.
    [opt_ignoreClasses] is [None] when [ignoreClasses] is absent or falsy
    and [Some l] when it is an array of strings; the constructor takes any
    other truthy value of that option without a check, and such a value is
    not represented here. *)
Record options : Type := Options {
  opt_prefix : value;
  opt_sourceDir : value;
  opt_logLevel : value;
  opt_ignoreClasses : option (list jstring)
}.

Inductive outcome (A : Type) : Type :=
| Return (a : A)
| Throw (message : jstring).
Arguments Return {A} a.
Arguments Throw {A} message.

Definition logLevels : list jstring :=
  [str "silent"; str "error"; str "warn"; str "info"; str "debug"].

(** [options.prefix.replace(/-$/, '')], then the format test. A value that
    is truthy and not a string never reaches this point. *)
Definition prefix_format_fails (v : value) : bool :=
  match v with
  | VString p =>
      negb (re_test re_prefixFormat (re_replace_first re_trailingHyphen p []))
  | _ => false
  end.

(** [levels.includes(v)] *)
Definition value_in (levels : list jstring) (v : value) : bool :=
  match v with
  | VString s => array_includes levels s
  | _ => false
  end.

Definition validateOptions (o : options) : outcome unit :=
  if truthy (opt_prefix o) && not_a_string (opt_prefix o) then
    Throw (str "prefix must be a string")
  else if truthy (opt_prefix o) && prefix_format_fails (opt_prefix o) then
    Throw (str "prefix must contain only alphanumeric characters, hyphens, and underscores")
  else if truthy (opt_sourceDir o) && not_a_string (opt_sourceDir o) then
    Throw (str "sourceDir must be a string")
  else if truthy (opt_logLevel o) && negb (value_in logLevels (opt_logLevel o)) then
    Throw (str "logLevel must be one of: silent, error, warn, info, debug")
  else Return tt.

(** [v || dflt] for an option that validation has left falsy or a string. *)
Definition string_or (v : value) (dflt : jstring) : jstring :=
  match v with
  | VString s => if truthy v then s else dflt
  | _ => dflt
  end.

Definition constructor (o : options) : outcome TailwindPrefixBot :=
  match validateOptions o with
  | Throw m => Throw m
  | Return _ =>
      Return
        {| prefix := string_or (opt_prefix o) (str "tw-");
           ignoreClasses :=
             match opt_ignoreClasses o with
             | Some l => l
             | None => [str "swiper"; str "swiper-wrapper"; str "swiper-slide"]
             end;
           logLevel := string_or (opt_logLevel o) (str "info");
           botStats := Stats 0 0 0 0 |}
  end.

Section Methods.

Variable this : TailwindPrefixBot.

Definition isNotTailwindClass (className : jstring) : bool :=
  let classToCheck := className in
  let lastColonIndex := lastIndexOf classToCheck (str ":") in
  let classToCheck :=
    if negb (lastColonIndex =? -1)%Z
    then substring classToCheck (lastColonIndex + 1) None
    else classToCheck in
  let classToCheck :=
    if startsWith classToCheck (str "!")
    then substring classToCheck 1 None
    else classToCheck in
  if array_includes (ignoreClasses this) classToCheck then true
  else
    let hasCamelCase := re_test re_camelCase classToCheck in
    let hasSnakeCase :=
      includes classToCheck (str "_") && negb (includes classToCheck (str "[")) in
    let isCustomClass :=
      re_test re_startsUpper classToCheck
      || includes classToCheck (str "__")
      || re_test re_startsDigit classToCheck
      || (length classToCheck <? 2) in
    let isFrameworkClass := re_test re_framework classToCheck in
    hasCamelCase || hasSnakeCase || isCustomClass || isFrameworkClass.

(** [className.match(re)] behind its [includes] guard. *)
Definition modifier_match (kw className : jstring)
  : option (jstring * jstring) :=
  if includes className kw then re_match2 (re_modifier kw) className else None.

(** The part of [addPrefixToClass] after the group and peer cases. *)
Definition prefix_last_segment (className : jstring) : jstring :=
  let lastColonIndex := lastIndexOf className (str ":") in
  if (lastColonIndex =? -1)%Z then
    if startsWith className (str "!")
    then str "!" ++ prefix this ++ substring className 1 None
    else prefix this ++ className
  else
    let beforeLastColon := substring className 0 (Some (lastColonIndex + 1)%Z) in
    let afterLastColon := substring className (lastColonIndex + 1) None in
    if startsWith afterLastColon (str "!")
    then beforeLastColon ++ str "!" ++ prefix this ++ substring afterLastColon 1 None
    else beforeLastColon ++ prefix this ++ afterLastColon.

(** [addPrefixToClass], with a bound on the depth of its recursion:
    [None] means the bound was reached. *)
Fixpoint addPrefixFuel (fuel : nat) (className : jstring) : option jstring :=
  match fuel with
  | 0 => None
  | S fuel' =>
      if includes className (prefix this) then Some className
      else if isNotTailwindClass className then Some className
      else
        match modifier_match (str "group-") className with
        | Some (groupPrefix, actualClass) =>
            option_map (app groupPrefix) (addPrefixFuel fuel' actualClass)
        | None =>
            match modifier_match (str "peer-") className with
            | Some (peerPrefix, actualClass) =>
                option_map (app peerPrefix) (addPrefixFuel fuel' actualClass)
            | None => Some (prefix_last_segment className)
            end
        end
  end.

(** The depth never exceeds the length of the token, so the bound below is
    never reached. *)
Definition addPrefixToClass (className : jstring) : jstring :=
  match addPrefixFuel (S (length className)) className with
  | Some processed => processed
  | None => className
  end.

(** [classString.split(/\s+/).filter(c => c.length > 0)] *)
Definition class_list (classString : jstring) : list jstring :=
  filter (fun c => 0 <? length c) (re_split re_whitespace classString).

(** The callback of [processHtmlClasses]: the new text of the region and
    the number of tokens it changed. *)
Definition htmlClass_callback (matched classString : jstring) : jstring * nat :=
  let classes := class_list classString in
  let processedClasses := map addPrefixToClass classes in
  let changeCount :=
    length (filter (fun className =>
                      negb (jstring_eqb (addPrefixToClass className) className))
                   classes) in
  let newClassString := join (str " ") processedClasses in
  (string_replace matched classString newClassString, changeCount).

Definition chunk_changes (c : chunk) : nat :=
  match c with
  | Lit _ => 0
  | Hit m caps => snd (htmlClass_callback m (first_capture caps))
  end.

(** Returns the processed content and the bot with its statistics updated. *)
Definition processHtmlClasses (content : jstring) : jstring * TailwindPrefixBot :=
  let result :=
    replace_all re_htmlClass (fun m c => fst (htmlClass_callback m c)) content in
  let changeCount := list_sum (map chunk_changes (matches re_htmlClass content)) in
  let st := botStats this in
  (result,
   {| prefix := prefix this;
      ignoreClasses := ignoreClasses this;
      logLevel := logLevel this;
      botStats := Stats (filesProcessed st) (filesChanged st)
                        (classesChanged st + changeCount) (errors st) |}).

Definition cssSelector_callback (matched className : jstring) : jstring :=
  if array_includes (ignoreClasses this) className then matched
  else if startsWith className (prefix this) then matched
  else str "." ++ prefix this ++ className.

Definition processCssSelectors (content : jstring) : jstring :=
  replace_all re_cssSelector cssSelector_callback content.

Definition apply_token (className : jstring) : jstring :=
  if re_test re_brace className then className
  else addPrefixToClass className.

Definition apply_callback (matched classString : jstring) : jstring :=
  let classes := map apply_token (class_list classString) in
  str "@apply " ++ join (str " ") classes ++ str ";".

(** The first [replace] of [processApplyDirectives]. *)
Definition apply_substitute (content : jstring) : jstring :=
  replace_all re_apply apply_callback content.

(** The second one: [.replace(/;;+/g, ';')]. *)
Definition collapse_semicolons (content : jstring) : jstring :=
  replace_all re_semicolons (fun _ _ => str ";") content.

Definition processApplyDirectives (content : jstring) : jstring :=
  collapse_semicolons (apply_substitute content).

Definition jsClass_callback (matched classString : jstring) : jstring :=
  if includes classString (str "${") || includes classString (str "?") then matched
  else
    let classes := class_list classString in
    let processedClasses := map addPrefixToClass classes in
    string_replace matched classString (join (str " ") processedClasses).

Definition processJsClasses (content : jstring) : jstring :=
  replace_all re_jsClassName jsClass_callback content.

End Methods.

Definition tw : TailwindPrefixBot :=
  Bot (str "tw-") [str "swiper"; str "swiper-wrapper"; str "swiper-slide"]
      (str "info") (Stats 0 0 0 0).

(** ** Auxiliary notions for the proofs *)

(** The code unit before the position reached after reading [w]. *)
Definition prev_after (prev : option char) (w : jstring) : option char :=
  fold_left (fun _ c => Some c) w prev.

Fixpoint take_while (p : char -> bool) (s : jstring) : jstring :=
  match s with
  | c :: s' => if p c then c :: take_while p s' else []
  | [] => []
  end.

Fixpoint drop_while (p : char -> bool) (s : jstring) : jstring :=
  match s with
  | c :: s' => if p c then drop_while p s' else s
  | [] => []
  end.

(** A run of [p] cannot be extended into [s]. *)
Definition stops (p : char -> bool) (s : jstring) : bool :=
  match s with
  | [] => true
  | c :: _ => negb (p c)
  end.

(** What a greedy star over a character class does: the longest run
    first, then one code unit less at a time. *)
Fixpoint greedy (p : char -> bool) (k : mstate -> option mstate)
    (prev : option char) (rest : jstring) (caps : list (nat * jstring))
  : option mstate :=
  match rest with
  | c :: rest' =>
      if p c then
        match greedy p k (Some c) rest' caps with
        | Some f => Some f
        | None => k (MState prev rest caps)
        end
      else k (MState prev rest caps)
  | [] => k (MState prev [] caps)
  end.

(** The matches a pattern allows, without their order of preference. *)
Inductive derives : regex -> mstate -> mstate -> Prop :=
| d_empty s : derives Empty s s
| d_char p prev c rest caps :
    p c = true ->
    derives (Char p) (MState prev (c :: rest) caps) (MState (Some c) rest caps)
| d_seq a b s s1 s2 :
    derives a s s1 -> derives b s1 s2 -> derives (Seq a b) s s2
| d_alt_l a b s s1 : derives a s s1 -> derives (Alt a b) s s1
| d_alt_r a b s s1 : derives b s s1 -> derives (Alt a b) s s1
| d_star_stop a s : derives (Star a) s s
| d_star_more a s s1 s2 :
    derives a s s1 -> derives (Star a) s1 s2 -> derives (Star a) s s2
| d_group i a s s1 :
    derives a s s1 ->
    derives (Group i a) s
      (MState (m_prev s1) (m_rest s1) ((i, consumed s s1) :: m_caps s1))
| d_assert f s :
    f (m_prev s) (hd_error (m_rest s)) = true -> derives (Assert f) s s.

(** A pattern without capturing groups. *)
Fixpoint group_free (r : regex) : bool :=
  match r with
  | Empty | Char _ | Assert _ => true
  | Seq a b | Alt a b => group_free a && group_free b
  | Star a => group_free a
  | Group _ _ => false
  end.

(** ** Texts that differ inside regions only *)



(** The captured value of a [className] attribute is built at run time. *)
Definition dynamic (classString : jstring) : bool :=
  includes classString (str "${") || includes classString (str "?").

(** No region of the pattern is matched in the text. *)
Definition unmatched (r : regex) (content : jstring) : Prop :=
  matches r content = map Lit content.

(** A global replace continued from inside a text, [prev] being the code
    unit before the current position. *)
Definition replace_all_from (r : regex) (f : jstring -> jstring -> jstring)
    (prev : option char) (s : jstring) : jstring :=
  flat_map (render f) (scan r prev s 0).

(** The position after [pre] is the start of a line or follows white
    space, a comma or an opening brace. *)
Definition selector_position (pre : jstring) : Prop :=
  pre = []
  \/ exists pre' x,
       pre = pre' ++ [x]
       /\ (is_line_terminator x = true \/ is_space x = true
           \/ x = ch_comma \/ x = ch_lbrace).

(** The end of a directive: a semicolon, which belongs to the region, or
    nothing before a brace or the end of the text. *)
Definition directive_end (semi post : jstring) : Prop :=
  semi = [ch_semi]
  \/ (semi = []
      /\ (post = []
          \/ exists x post', post = x :: post' /\ (x = ch_lbrace \/ x = ch_rbrace))).

(** Every run of semicolons reduced to one: a semicolon followed by a
    semicolon is dropped. *)
Fixpoint squeeze (s : jstring) : jstring :=
  match s with
  | [] => []
  | c :: s' =>
      if (ch_semi =? c)%N && negb (stops (N.eqb ch_semi) s')
      then squeeze s'
      else c :: squeeze s'
  end.

(** ** Configuration in the words of the specification *)

(** [q] is [p] without one trailing hyphen. *)
Definition stripped_of_hyphen (p q : jstring) : Prop :=
  p = q ++ [ch_hyphen] \/ (q = p /\ forall r, p <> r ++ [ch_hyphen]).

(** After stripping one trailing hyphen the prefix matches
    [^[A-Za-z0-9_-]+$]. *)
Definition valid_prefix_format (p : jstring) : Prop :=
  exists q, stripped_of_hyphen p q /\ q <> [] /\ forallb is_ident q = true.

Definition is_string (v : value) : Prop := exists s, v = VString s.


(** The options that are rejected, for a given reading of which options
    count as given. *)
Definition rejected (given : value -> Prop) (o : options) : Prop :=
  (given (opt_prefix o)
   /\ (~ is_string (opt_prefix o)
       \/ exists p, opt_prefix o = VString p /\ ~ valid_prefix_format p))
  \/ (given (opt_sourceDir o) /\ ~ is_string (opt_sourceDir o))
  \/ (given (opt_logLevel o)
      /\ ~ exists l, opt_logLevel o = VString l /\ In l logLevels).

(** ** Modifier chains *)

(** A sequence of segments, each an identifier without colon followed by a
    colon. *)
Inductive ModifierChain : jstring -> Prop :=
| chain_empty : ModifierChain []
| chain_segment ident m :
    ~ In ch_colon ident -> ModifierChain m ->
    ModifierChain (ident ++ ch_colon :: m).

(** Empty, or ending with a colon. *)
Definition ends_chain (m : jstring) : Prop :=
  m = [] \/ exists m', m = m' ++ [ch_colon].

(** ** The classifier in the words of the specification *)

(** [base] is the part of [className] after its last colon, or all of it
    when it has none. *)
Definition base_class_of (className base : jstring) : Prop :=
  ~ In ch_colon base
  /\ (className = base \/ exists m, className = m ++ ch_colon :: base).

(** [c] is [base] without a single leading exclamation mark. *)
Definition stripped_of_bang (base c : jstring) : Prop :=
  base = ch_bang :: c \/ (c = base /\ forall r, base <> ch_bang :: r).

(** The five rules under which a base class is not a utility class. *)
Definition in_ignore_set (ignoreSet : list jstring) (c : jstring) : Prop :=
  In c ignoreSet.

Definition camel_case (c : jstring) : Prop :=
  exists u x y v, c = u ++ x :: y :: v /\ is_lower x = true /\ is_upper y = true.

Definition snake_case (c : jstring) : Prop :=
  In ch_underscore c /\ ~ In ch_lbracket c.

Definition custom_shape (c : jstring) : Prop :=
  (exists x r, c = x :: r /\ is_upper x = true)
  \/ (exists x r, c = x :: r /\ is_digit x = true)
  \/ length c < 2
  \/ (exists u v, c = u ++ ch_underscore :: ch_underscore :: v).

Definition framework_reserved (c : jstring) : Prop :=
  exists p r, In p framework_prefixes /\ c = p ++ r.

Definition not_utility (ignoreSet : list jstring) (c : jstring) : Prop :=
  in_ignore_set ignoreSet c \/ camel_case c \/ snake_case c
  \/ custom_shape c \/ framework_reserved c.

(** ** The remaining methods *)

(** What [levels[key]] yields for the object literal of [log]: the rank of
    one of the five levels, a property inherited from [Object.prototype]
    (a function or an object), or [undefined]. *)
Inductive level_entry : Type :=
| Rank (n : nat)
| Inherited
| Missing.

Definition object_prototype_keys : list jstring :=
  [ str "constructor"; str "hasOwnProperty"; str "isPrototypeOf";
    str "propertyIsEnumerable"; str "toLocaleString"; str "toString";
    str "valueOf"; str "__proto__"; str "__defineGetter__";
    str "__defineSetter__"; str "__lookupGetter__"; str "__lookupSetter__" ].

Definition levels_get (key : jstring) : level_entry :=
  if jstring_eqb key (str "silent") then Rank 0
  else if jstring_eqb key (str "error") then Rank 1
  else if jstring_eqb key (str "warn") then Rank 2
  else if jstring_eqb key (str "info") then Rank 3
  else if jstring_eqb key (str "debug") then Rank 4
  else if array_includes object_prototype_keys key then Inherited
  else Missing.

(** [entry || 3]: zero and [undefined] are falsy. *)
Definition or_three (e : level_entry) : level_entry :=
  match e with
  | Rank 0 | Missing => Rank 3
  | _ => e
  end.

(** [a <= b]: a comparison with [undefined] or with an object is false. *)
Definition entry_le (a b : level_entry) : bool :=
  match a, b with
  | Rank x, Rank y => x <=? y
  | _, _ => false
  end.

(** [toUpperCase] on a word of ASCII letters. *)
Definition toUpperCase_ascii (s : jstring) : jstring :=
  map (fun c => if is_lower c then (c - 32)%N else c) s.

(** [log(level, message)]: the line written to the console, if any.
    [timestamp] stands for [new Date().toISOString()]. A line is written
    for a level of the literal only, whose name consists of ASCII letters. *)
Definition log (this : TailwindPrefixBot) (timestamp level message : jstring)
  : option jstring :=
  let currentLevel := or_three (levels_get (logLevel this)) in
  if entry_le (levels_get level) currentLevel then
    Some (str "[" ++ timestamp ++ str "] [" ++ toUpperCase_ascii level
          ++ str "] " ++ message)
  else None.

(** [processContent(content, filePath)]; [fileExt] stands for
    [path.extname(filePath).toLowerCase()]. *)
Definition processContent (this : TailwindPrefixBot) (content fileExt : jstring)
  : jstring * TailwindPrefixBot :=
  if array_includes [str ".html"; str ".php"; str ".vue"] fileExt then
    processHtmlClasses this content
  else if jstring_eqb fileExt (str ".css") then
    (processApplyDirectives this (processCssSelectors this content), this)
  else if array_includes [str ".js"; str ".jsx"; str ".ts"; str ".tsx"] fileExt then
    processHtmlClasses this (processJsClasses this content)
  else (content, this).

(** The selector pass from a position inside the text, [prev] being the
    code unit before it. *)
Definition selector_pass (this : TailwindPrefixBot)
  : option char -> jstring -> jstring :=
  replace_all_from re_cssSelector (cssSelector_callback this).

(** The text that [updateTailwindConfig] puts in place of
    [module.exports = {]. *)
Definition config_replacement (this : TailwindPrefixBot) : jstring :=
  str "module.exports = {" ++ [10%N] ++ str "  prefix: '" ++ prefix this ++ str "',".

(** [updateTailwindConfig]: [configFile] is the content read from the
    configuration file, or [None] when the file does not exist or when its
    backup or its reading fails (the error is caught and nothing is
    written); the result is the content written, or [None] when nothing is
    written. *)
Definition updateTailwindConfig (this : TailwindPrefixBot)
    (configFile : option jstring) : option jstring :=
  match configFile with
  | None => None
  | Some configContent =>
      if negb (includes configContent (str "prefix:")) then
        Some (string_replace configContent (str "module.exports = {")
                (config_replacement this))
      else None
  end.

(** The configuration file after the call. *)
Definition config_after (this : TailwindPrefixBot) (configFile : option jstring)
  : option jstring :=
  match updateTailwindConfig this configFile with
  | Some written => Some written
  | None => configFile
  end.

(** [s.split(sep)] for a separator of one code unit. *)
Fixpoint split_char (sep : char) (s : jstring) : list jstring :=
  match s with
  | [] => [[]]
  | c :: s' =>
      match split_char sep s' with
      | piece :: pieces =>
          if (c =? sep)%N then [] :: piece :: pieces
          else (c :: piece) :: pieces
      | [] => [[c]]
      end
  end.

Definition ch_slash : char := 47%N.

(** [/[/\\]/g], [/[:.]/g] and [/_/g] *)
Definition re_pathSeparator : regex :=
  Char (fun c => (c =? ch_slash)%N || (c =? ch_backslash)%N).
Definition re_colonOrDot : regex :=
  Char (fun c => (c =? ch_colon)%N || (c =? ch_dot)%N).
Definition re_underscore : regex := lit_char ch_underscore.

(** The name [createBackup] gives to the backup of the file at
    [relativePath] (its path relative to the source directory), without
    the extension [.backup]; [isoString] stands for
    [new Date().toISOString()]. *)
Definition backupName (relativePath isoString : jstring) : jstring :=
  let timestamp := replace_all re_colonOrDot (fun _ _ => str "-") isoString in
  replace_all re_pathSeparator (fun _ _ => str "_") relativePath
  ++ str "_" ++ timestamp.

Definition backupFileName (relativePath isoString : jstring) : jstring :=
  backupName relativePath isoString ++ str ".backup".

(** The relative path [restoreFromBackup] computes from [backupName], the
    base name of the backup file without [.backup]; [sep] is [path.sep]. *)
Definition originalRelativePath (sep : char) (backupName : jstring) : jstring :=
  let parts := split_char ch_underscore backupName in
  let parts := removelast parts in
  replace_all re_underscore (fun _ _ => [sep]) (join (str "_") parts).

(** The options object of the command line. *)
Record cli_options : Type := CliOptions {
  cli_prefix : value;
  cli_sourceDir : value;
  cli_backup : bool;
  cli_cleanBackupsFlag : bool
}.

Definition cli_defaults : cli_options :=
  CliOptions (VString (str "two-")) (VString (str "./")) true false.

(** How the argument loop ends: at [--test], at [--help], or after the
    last argument. *)
Inductive cli_parse : Type :=
| ParsedTest (o : cli_options)
| ParsedHelp
| Parsed (o : cli_options).

Fixpoint parse_args (args : list jstring) (o : cli_options) : cli_parse :=
  match args with
  | [] => Parsed o
  | a :: rest =>
      if jstring_eqb a (str "--prefix") then
        (* options.prefix = args[++i], undefined after the last argument *)
        match rest with
        | v :: rest' =>
            parse_args rest'
              (CliOptions (VString v) (cli_sourceDir o) (cli_backup o)
                 (cli_cleanBackupsFlag o))
        | [] =>
            Parsed (CliOptions VUndefined (cli_sourceDir o) (cli_backup o)
                      (cli_cleanBackupsFlag o))
        end
      else if jstring_eqb a (str "--dir") then
        match rest with
        | v :: rest' =>
            parse_args rest'
              (CliOptions (cli_prefix o) (VString v) (cli_backup o)
                 (cli_cleanBackupsFlag o))
        | [] =>
            Parsed (CliOptions (cli_prefix o) VUndefined (cli_backup o)
                      (cli_cleanBackupsFlag o))
        end
      else if jstring_eqb a (str "--no-backup") then
        parse_args rest
          (CliOptions (cli_prefix o) (cli_sourceDir o) false
             (cli_cleanBackupsFlag o))
      else if jstring_eqb a (str "--clean-backups") then
        parse_args rest
          (CliOptions (cli_prefix o) (cli_sourceDir o) (cli_backup o) true)
      else if jstring_eqb a (str "--test") then ParsedTest o
      else if jstring_eqb a (str "--help") then ParsedHelp
      else parse_args rest o
  end.

(** The options the constructor reads from the options of the command
    line. *)
Definition constructor_options (o : cli_options) : options :=
  Options (cli_prefix o) (cli_sourceDir o) VUndefined None.

(** What [main] does with its arguments. *)
Inductive cli_run : Type :=
| ShowHelp
| TestLogic (bot : TailwindPrefixBot)
| CleanBackups (bot : TailwindPrefixBot)
| RunBot (bot : TailwindPrefixBot)
| Failed (message : jstring).

Definition main (args : list jstring) : cli_run :=
  match parse_args args cli_defaults with
  | ParsedHelp => ShowHelp
  | ParsedTest o =>
      match constructor (constructor_options o) with
      | Return bot => TestLogic bot
      | Throw m => Failed m
      end
  | Parsed o =>
      match constructor (constructor_options o) with
      | Return bot => if cli_cleanBackupsFlag o then CleanBackups bot else RunBot bot
      | Throw m => Failed m
      end
  end.

(** The source directory of the options is a string or [undefined]. *)
Definition dir_ok (o : cli_options) : Prop :=
  cli_sourceDir o = VUndefined \/ exists d, cli_sourceDir o = VString d.

(** A list of arguments that the loop reads to its end with every value
    in place: no [--test], no [--help], no option left without its value. *)
Inductive complete_args : list jstring -> Prop :=
| complete_nil : complete_args []
| complete_prefix v args :
    complete_args args -> complete_args (str "--prefix" :: v :: args)
| complete_dir v args :
    complete_args args -> complete_args (str "--dir" :: v :: args)
| complete_other a args :
    a <> str "--prefix" -> a <> str "--dir" ->
    a <> str "--test" -> a <> str "--help" ->
    complete_args args -> complete_args (a :: args).

(** The words of a class string: its maximal runs without white space.
    [acc] is the current word, reversed. *)
Fixpoint words_go (acc : jstring) (s : jstring) : list jstring :=
  match s with
  | [] => match acc with [] => [] | _ :: _ => [rev acc] end
  | c :: s' =>
      if is_space c then
        match acc with
        | [] => words_go [] s'
        | _ :: _ => rev acc :: words_go [] s'
        end
      else words_go (c :: acc) s'
  end.

Definition words (s : jstring) : list jstring := words_go [] s.

Definition not_space (c : char) : bool := negb (is_space c).

Definition nonempty (c : jstring) : bool := 0 <? length c.

(** A token: not empty and without white space. *)
Definition is_token (t : jstring) : bool :=
  nonempty t && forallb not_space t.

(** ** Texts rebuilt from the matches of a pattern *)

(** [spliced R chunks s t]: [chunks] cuts the text [s] into code units
    and matched regions, and [t] is [s] with every code unit copied and
    every region [m], of first capture [c], replaced by a text [m'] such
    that [R m c m']. *)
Inductive spliced (R : jstring -> jstring -> jstring -> Prop)
  : list chunk -> jstring -> jstring -> Prop :=
| sp_end : spliced R [] [] []
| sp_keep x chunks s t :
    spliced R chunks s t -> spliced R (Lit x :: chunks) (x :: s) (x :: t)
| sp_region m caps m' chunks s t :
    R m (first_capture caps) m' -> spliced R chunks s t ->
    spliced R (Hit m caps :: chunks) (m ++ s) (m' ++ t).

(** The tokens of a class string, each through [rewrite], joined with
    single spaces. *)
Definition rejoined (rewrite : jstring -> jstring) (classString : jstring)
  : jstring :=
  join (str " ") (map rewrite (class_list classString)).

(** The class string [c] does not occur in a region before its place as
    the value of the attribute, [head] being the text of the region before
    the value. *)
Definition value_first (head c : jstring) : Prop :=
  c = [] \/ includes (head ++ removelast c) c = false.

Definition lower_ascii (c : char) : char :=
  if is_upper c then (c + 32)%N else c.

(** An attribute region [m] of value [c] and what [m'] it becomes: the
    region is the keyword in any case, white space, the equals sign, white
    space, an opening delimiter, the value and a closing delimiter; [m']
    is [m.replace(c, rejoined)], which keeps all but the value when the
    value is the first place where [c] occurs in [m] and the rejoined
    tokens have no dollar sign. *)
Definition attribute_region (keyword : jstring) (opening closing : char -> bool)
    (rewrite : jstring -> jstring) (m c m' : jstring) : Prop :=
  m' = string_replace m c (rejoined rewrite c)
  /\ exists kw ws1 ws2 o q,
       m = (kw ++ ws1 ++ ch_eq :: ws2 ++ [o]) ++ c ++ [q]
       /\ map lower_ascii kw = map lower_ascii keyword
       /\ forallb is_space ws1 = true /\ forallb is_space ws2 = true
       /\ opening o = true /\ closing q = true
       /\ (value_first (kw ++ ws1 ++ ch_eq :: ws2 ++ [o]) c ->
           ~ In ch_dollar (rejoined rewrite c) ->
           m' = (kw ++ ws1 ++ ch_eq :: ws2 ++ [o]) ++ rejoined rewrite c ++ [q]).

(** A [className] region: left as it is when its value is dynamic. *)
Definition className_region (rewrite : jstring -> jstring)
    (m c m' : jstring) : Prop :=
  if dynamic c then m' = m
  else attribute_region (str "className") js_open js_close rewrite m c m'.

(** A selector region [.c] stays when [c] is ignored or starts with the
    prefix, and becomes [.] + prefix + [c] otherwise. *)
Definition selector_region (this : TailwindPrefixBot) (m c m' : jstring) : Prop :=
  m = ch_dot :: c
  /\ c <> [] /\ forallb is_ident c = true
  /\ m' = if array_includes (ignoreClasses this) c || startsWith c (prefix this)
          then m else ch_dot :: prefix this ++ c.

(** An [@apply] region: the keyword, white space, the class list [c] and
    a semicolon or nothing; it becomes the keyword, one space, the tokens
    joined with single spaces and a semicolon. *)
Definition apply_region (this : TailwindPrefixBot) (m c m' : jstring) : Prop :=
  (exists ws semi,
      m = str "@apply" ++ ws ++ c ++ semi
      /\ ws <> [] /\ forallb is_space ws = true
      /\ c <> [] /\ forallb not_terminator c = true
      /\ (semi = [] \/ semi = [ch_semi]))
  /\ m' = str "@apply " ++ rejoined (apply_token this) c ++ str ";".

(** ** The argument of the constructor *)




(** * Facts about strings *)

Section StringFacts.

Lemma jstring_eqb_eq (a b : jstring) : jstring_eqb a b = true <-> a = b.
Proof.
  revert b; induction a as [|x a IH]; intros [|y b]; simpl; split;
    try congruence; try reflexivity.
  - intros H. apply andb_true_iff in H as [Hx Hr].
    apply N.eqb_eq in Hx. apply IH in Hr. congruence.
  - intros H. injection H as -> ->. rewrite N.eqb_refl. simpl. now apply IH.
Qed.

Lemma jstring_eqb_refl (a : jstring) : jstring_eqb a a = true.
Proof. now apply jstring_eqb_eq. Qed.

Lemma array_includes_In (arr : list jstring) (x : jstring) :
  array_includes arr x = true <-> In x arr.
Proof.
  unfold array_includes. rewrite existsb_exists. split.
  - intros (y & Hy & He). apply jstring_eqb_eq in He. now subst.
  - intros H. exists x. split; [assumption | apply jstring_eqb_refl].
Qed.

Lemma startsWith_app (p r : jstring) : startsWith (p ++ r) p = true.
Proof. induction p as [|c p IH]; simpl; [reflexivity|]. now rewrite N.eqb_refl. Qed.

Lemma startsWith_iff (s p : jstring) :
  startsWith s p = true <-> exists r, s = p ++ r.
Proof.
  split.
  - revert s; induction p as [|c p IH]; intros s H.
    + now exists s.
    + destruct s as [|x s]; simpl in H; [discriminate|].
      apply andb_true_iff in H as [Hx Hr]. apply N.eqb_eq in Hx.
      destruct (IH _ Hr) as [r ->]. exists r. now subst.
  - intros [r ->]. apply startsWith_app.
Qed.

Lemma includes_iff (s p : jstring) :
  includes s p = true <-> exists a b, s = a ++ p ++ b.
Proof.
  split.
  - induction s as [|c s IH]; simpl; intros H.
    + rewrite orb_false_r in H. apply startsWith_iff in H as [r Hr].
      now exists [], r.
    + apply orb_true_iff in H as [H|H].
      * apply startsWith_iff in H as [r Hr]. now exists [], r.
      * destruct (IH H) as (a & b & ->). now exists (c :: a), b.
  - intros (a & b & ->). induction a as [|c a IH].
    + assert (H : startsWith (p ++ b) p = true) by apply startsWith_app.
      simpl. destruct (p ++ b); simpl; now rewrite H.
    + simpl. rewrite IH. apply orb_true_r.
Qed.

Lemma includes_middle (a p b : jstring) : includes (a ++ p ++ b) p = true.
Proof. apply includes_iff. now exists a, b. Qed.

Lemma includes_suffix_false (a s p : jstring) :
  includes (a ++ s) p = false -> includes s p = false.
Proof.
  intros H. destruct (includes s p) eqn:E; [|reflexivity].
  apply includes_iff in E as (u & v & ->).
  rewrite <- H. symmetry. apply includes_iff. exists (a ++ u), v.
  now rewrite <- app_assoc.
Qed.

Lemma includes_char_In (s : jstring) (c : char) :
  includes s [c] = true <-> In c s.
Proof.
  rewrite includes_iff. split.
  - intros (a & b & ->). apply in_or_app. right. now left.
  - intros H. apply in_split in H as (a & b & ->). now exists a, b.
Qed.

(** [lastIndexOf] for a one-character pattern. *)
Lemma lastIndexOf_from_absent (s : jstring) (c : char) (i : Z) :
  ~ In c s -> lastIndexOf_from s [c] i = (-1)%Z.
Proof.
  revert i; induction s as [|x s IH]; intros i H; simpl.
  - reflexivity.
  - rewrite IH by (intros F; apply H; now right). simpl.
    destruct (x =? c)%N eqn:E; [|reflexivity].
    apply N.eqb_eq in E. exfalso. apply H. now left.
Qed.

Lemma lastIndexOf_from_present (m b : jstring) (c : char) (i : Z) :
  (0 <= i)%Z -> ~ In c b ->
  lastIndexOf_from (m ++ c :: b) [c] i = (i + Z.of_nat (length m))%Z.
Proof.
  revert i; induction m as [|x m IH]; intros i Hi Hb.
  - cbn [app lastIndexOf_from].
    rewrite (lastIndexOf_from_absent _ _ (i + 1) Hb). simpl.
    rewrite N.eqb_refl. simpl. lia.
  - cbn [app lastIndexOf_from]. rewrite IH by (lia || assumption).
    replace ((i + 1 + Z.of_nat (length m) =? -1)%Z) with false
      by (symmetry; apply Z.eqb_neq; lia).
    cbn [length]. lia.
Qed.

Lemma lastIndexOf_colon_absent (s : jstring) :
  ~ In ch_colon s -> lastIndexOf s (str ":") = (-1)%Z.
Proof. intros H. exact (lastIndexOf_from_absent s ch_colon 0 H). Qed.

Lemma lastIndexOf_colon_present (m b : jstring) :
  ~ In ch_colon b ->
  lastIndexOf (m ++ ch_colon :: b) (str ":") = Z.of_nat (length m).
Proof.
  intros H. unfold lastIndexOf. change (str ":") with [ch_colon].
  rewrite lastIndexOf_from_present by (lia || assumption). lia.
Qed.

(** A string either has no colon, or splits at its last one. *)
Lemma last_colon_cases (s : jstring) :
  ~ In ch_colon s
  \/ (exists m b, s = m ++ ch_colon :: b /\ ~ In ch_colon b).
Proof.
  induction s as [|x s IH].
  - left. intros [].
  - destruct IH as [Hn|(m & b & -> & Hb)].
    + destruct (N.eq_dec x ch_colon) as [->|Hx].
      * right. now exists [], s.
      * left. intros [F|F]; [now apply Hx | now apply Hn].
    + right. now exists (x :: m), b.
Qed.

Lemma substring_from (a b : jstring) :
  substring (a ++ b) (Z.of_nat (length a)) None = b.
Proof.
  unfold substring, clamp. rewrite length_app.
  rewrite Nat2Z.inj_add.
  set (la := Z.of_nat (length a)). set (lb := Z.of_nat (length b)).
  assert (0 <= la)%Z by (subst la; lia). assert (0 <= lb)%Z by (subst lb; lia).
  replace (Z.min (Z.min (Z.max la 0) (la + lb)) (la + lb)) with la by lia.
  replace (Z.max (Z.min (Z.max la 0) (la + lb)) (la + lb) - la)%Z with lb by lia.
  subst la lb. rewrite !Nat2Z.id.
  rewrite skipn_app, skipn_all, Nat.sub_diag. simpl.
  apply firstn_all.
Qed.

Lemma substring_upto (a b : jstring) :
  substring (a ++ b) 0 (Some (Z.of_nat (length a))) = a.
Proof.
  unfold substring, clamp. rewrite length_app.
  rewrite Nat2Z.inj_add.
  set (la := Z.of_nat (length a)). set (lb := Z.of_nat (length b)).
  assert (0 <= la)%Z by (subst la; lia). assert (0 <= lb)%Z by (subst lb; lia).
  replace (Z.min (Z.min (Z.max 0 0) (la + lb)) (Z.min (Z.max la 0) (la + lb))) with 0%Z by lia.
  replace (Z.max (Z.min (Z.max 0 0) (la + lb)) (Z.min (Z.max la 0) (la + lb)) - 0)%Z
    with la by lia.
  subst la lb. rewrite Nat2Z.id. simpl.
  rewrite firstn_app, firstn_all, Nat.sub_diag. simpl. apply app_nil_r.
Qed.

Lemma substring_tail (c : char) (s : jstring) : substring (c :: s) 1 None = s.
Proof. apply (substring_from [c] s). Qed.

End StringFacts.

(** * Facts about the matcher *)

Section MatcherFacts.

Lemma star_loop_sound (body : mstate -> (mstate -> option mstate) -> option mstate)
    (a : regex) :
  (forall s k f, body s k = Some f ->
                 exists s', derives a s s' /\ k s' = Some f) ->
  forall fuel s k f,
    star_loop body k fuel s = Some f ->
    exists s', derives (Star a) s s' /\ k s' = Some f.
Proof.
  intros Hbody. induction fuel as [|fuel IH]; intros s k f H; simpl in H.
  - exists s. split; [constructor | assumption].
  - destruct (body s _) as [f'|] eqn:E.
    + injection H as ->. apply Hbody in E as (s1 & Hd & Hk).
      destruct (length (m_rest s1) <? length (m_rest s)); [|discriminate].
      apply IH in Hk as (s2 & Hd2 & Hk2).
      exists s2. split; [econstructor; eassumption | assumption].
    + exists s. split; [constructor | assumption].
Qed.

(** Whatever the matcher returns is a match the pattern allows. *)
Lemma rmatch_sound (r : regex) :
  forall s k f, rmatch r s k = Some f ->
                exists s', derives r s s' /\ k s' = Some f.
Proof.
  induction r as [|p|a IHa b IHb|a IHa b IHb|a IHa|i a IHa|g];
    intros s k f H; simpl in H.
  - exists s. split; [constructor | assumption].
  - destruct s as [prev [|c rest] caps]; simpl in H; [discriminate|].
    destruct (p c) eqn:E; [|discriminate].
    eexists. split; [now constructor | eassumption].
  - apply IHa in H as (s1 & Hd1 & H). apply IHb in H as (s2 & Hd2 & H).
    exists s2. split; [econstructor; eassumption | assumption].
  - destruct (rmatch a s k) as [f'|] eqn:E.
    + injection H as ->. apply IHa in E as (s1 & Hd & Hk).
      exists s1. split; [now apply d_alt_l | assumption].
    + apply IHb in H as (s1 & Hd & Hk).
      exists s1. split; [now apply d_alt_r | assumption].
  - eapply star_loop_sound; eassumption.
  - apply IHa in H as (s1 & Hd & Hk).
    eexists. split; [apply d_group; eassumption | eassumption].
  - destruct (g _ _) eqn:E; [|discriminate].
    exists s. split; [now constructor | assumption].
Qed.

(** A match reads a prefix of the rest of the input. *)
Lemma derives_reads (r : regex) (s s' : mstate) :
  derives r s s' -> exists w, m_rest s = w ++ m_rest s'.
Proof.
  induction 1 as [s|p prev c rest caps Hp|a b s s1 s2 _ [w1 E1] _ [w2 E2]
                  |a b s s1 _ IH|a b s s1 _ IH|a s
                  |a s s1 s2 _ [w1 E1] _ [w2 E2]|i a s s1 _ IH|g s Hg].
  - now exists [].
  - now exists [c].
  - exists (w1 ++ w2). rewrite E1, E2. now rewrite app_assoc.
  - assumption.
  - assumption.
  - now exists [].
  - exists (w1 ++ w2). rewrite E1, E2. now rewrite app_assoc.
  - assumption.
  - now exists [].
Qed.

Lemma consumed_app (prev prev' : option char) (w rest : jstring)
    (caps caps' : list (nat * jstring)) :
  consumed (MState prev (w ++ rest) caps) (MState prev' rest caps') = w.
Proof.
  unfold consumed. simpl. rewrite length_app.
  replace (length w + length rest - length rest) with (length w) by lia.
  rewrite firstn_app, firstn_all, Nat.sub_diag. simpl. apply app_nil_r.
Qed.

Lemma exec_at_length (r : regex) (prev : option char) (s : jstring)
    (len : nat) (caps : list (nat * jstring)) :
  exec_at r prev s = Some (len, caps) -> len <= length s.
Proof.
  unfold exec_at. destruct (rmatch _ _ _) as [f|]; [|discriminate].
  intros H. injection H as <- _. lia.
Qed.

Lemma seq_of_cons (r : regex) (l : list regex) (s : mstate)
    (k : mstate -> option mstate) :
  rmatch (seq_of (r :: l)) s k = rmatch r s (fun s' => rmatch (seq_of l) s' k).
Proof. destruct l; reflexivity. Qed.

Lemma prev_after_cons (prev : option char) (c : char) (w : jstring) :
  prev_after prev (c :: w) = prev_after (Some c) w.
Proof. reflexivity. Qed.

Lemma prev_after_last (prev : option char) (w : jstring) (c : char) :
  prev_after prev (w ++ [c]) = Some c.
Proof. unfold prev_after. now rewrite fold_left_app. Qed.

(** A literal matches exactly when the input starts with it. *)
Lemma rmatch_lit (w : jstring) :
  forall prev rest caps k,
    rmatch (lit w) (MState prev rest caps) k =
    if startsWith rest w
    then k (MState (prev_after prev w) (skipn (length w) rest) caps)
    else None.
Proof.
  unfold lit. induction w as [|c w IH]; intros prev rest caps k.
  - reflexivity.
  - cbn [map]. rewrite seq_of_cons. destruct rest as [|x rest]; [reflexivity|].
    cbn [rmatch lit_char m_rest m_caps startsWith].
    rewrite (N.eqb_sym c x). destruct (x =? c)%N eqn:E; [|reflexivity].
    apply N.eqb_eq in E. subst x. cbn [andb]. now rewrite IH.
Qed.

Lemma star_char (p : char -> bool) (k : mstate -> option mstate) :
  forall rest fuel prev caps,
    length rest <= fuel ->
    star_loop (rmatch (Char p)) k fuel (MState prev rest caps)
    = greedy p k prev rest caps.
Proof.
  induction rest as [|c rest IH]; intros fuel prev caps Hf.
  - destruct fuel; reflexivity.
  - destruct fuel as [|fuel]; [simpl in Hf; lia|].
    cbn [star_loop rmatch m_rest m_caps greedy].
    destruct (p c); [|reflexivity].
    replace (length rest <? length (c :: rest)) with true
      by (symmetry; apply Nat.ltb_lt; simpl; lia).
    rewrite IH by (simpl in Hf; lia). reflexivity.
Qed.

Lemma rmatch_star_char (p : char -> bool) (prev : option char)
    (rest : jstring) (caps : list (nat * jstring))
    (k : mstate -> option mstate) :
  rmatch (Star (Char p)) (MState prev rest caps) k = greedy p k prev rest caps.
Proof. simpl. now apply star_char. Qed.

Lemma take_drop_while (p : char -> bool) (s : jstring) :
  take_while p s ++ drop_while p s = s.
Proof.
  induction s as [|c s IH]; simpl; [reflexivity|].
  destruct (p c); simpl; [now rewrite IH | reflexivity].
Qed.

Lemma take_while_all (p : char -> bool) (s : jstring) :
  forallb p (take_while p s) = true.
Proof.
  induction s as [|c s IH]; simpl; [reflexivity|].
  destruct (p c) eqn:E; simpl; [now rewrite E | reflexivity].
Qed.

Lemma drop_while_stops (p : char -> bool) (s : jstring) :
  stops p (drop_while p s) = true.
Proof.
  induction s as [|c s IH]; simpl; [reflexivity|].
  destruct (p c) eqn:E; simpl; [assumption | now rewrite E].
Qed.

(** The longest run wins when the continuation accepts it. *)
Lemma greedy_max (p : char -> bool) (k : mstate -> option mstate)
    (caps : list (nat * jstring)) (f : mstate) :
  forall u v prev,
    forallb p u = true -> stops p v = true ->
    k (MState (prev_after prev u) v caps) = Some f ->
    greedy p k prev (u ++ v) caps = Some f.
Proof.
  induction u as [|c u IH]; intros v prev Hu Hv Hk.
  - destruct v as [|c v]; simpl; [assumption|].
    simpl in Hv. apply negb_true_iff in Hv. now rewrite Hv.
  - simpl in Hu. apply andb_true_iff in Hu as [Hc Hu].
    cbn [app greedy]. rewrite Hc. now rewrite (IH v (Some c) Hu Hv Hk).
Qed.

(** When the continuation rejects every position inside a run, only the
    end of the longest run is tried with a chance of success. *)
Lemma greedy_blocked (p : char -> bool) (k : mstate -> option mstate)
    (caps : list (nat * jstring)) :
  (forall prev c rest, p c = true -> k (MState prev (c :: rest) caps) = None) ->
  forall u v prev,
    forallb p u = true -> stops p v = true ->
    greedy p k prev (u ++ v) caps = k (MState (prev_after prev u) v caps).
Proof.
  intros Hblock. induction u as [|c u IH]; intros v prev Hu Hv.
  - destruct v as [|c v]; simpl; [reflexivity|].
    simpl in Hv. apply negb_true_iff in Hv. now rewrite Hv.
  - simpl in Hu. apply andb_true_iff in Hu as [Hc Hu].
    cbn [app greedy]. rewrite Hc. rewrite (IH v (Some c) Hu Hv).
    rewrite prev_after_cons.
    destruct (k (MState (prev_after (Some c) u) v caps)) eqn:E; [reflexivity|].
    now apply Hblock.
Qed.

End MatcherFacts.

(** * Facts about the patterns of the classifier *)

Section ClassifierPatterns.

(** A pattern that starts with [^] matches nowhere but at the start. *)
Lemma search_anchored (r : regex) (s : jstring) (c : char) :
  search (Seq bol r) (Some c) s = None.
Proof.
  revert c. induction s as [|x s IH]; intros c; simpl.
  - reflexivity.
  - now rewrite IH.
Qed.

Lemma re_test_anchored (r : regex) (s : jstring) :
  re_test (Seq bol r) s =
  match exec_at (Seq bol r) None s with Some _ => true | None => false end.
Proof.
  unfold re_test. destruct s as [|x s]; cbn [search].
  - destruct (exec_at _ _ _) as [[len caps]|]; reflexivity.
  - destruct (exec_at _ _ _) as [[len caps]|]; [reflexivity|].
    now rewrite search_anchored.
Qed.

Lemma re_test_starts (p : char -> bool) (s : jstring) :
  re_test (Seq bol (Char p)) s = true <-> exists x r, s = x :: r /\ p x = true.
Proof.
  rewrite re_test_anchored. unfold exec_at. destruct s as [|x s]; simpl.
  - split; [discriminate | intros (? & ? & ? & _); discriminate].
  - destruct (p x) eqn:E; split; try discriminate.
    + intros _. now exists x, s.
    + reflexivity.
    + intros (y & r & H & Hp). injection H as <- <-. congruence.
Qed.

Lemma search_camelCase (s : jstring) (prev : option char) :
  (exists res, search re_camelCase prev s = Some res) <-> camel_case s.
Proof.
  revert prev. induction s as [|x s IH]; intros prev.
  - split.
    + intros [res H]. discriminate.
    + intros (u & a & b & v & H & _). destruct u; discriminate.
  - cbn [search]. unfold exec_at at 1, re_camelCase at 1.
    cbn [rmatch m_rest m_caps].
    destruct (is_lower x) eqn:Ex.
    + destruct s as [|y s].
      * split.
        -- intros [res H]. discriminate.
        -- intros (u & a & b & v & H & _).
           destruct u as [|? [|? ?]]; discriminate.
      * destruct (is_upper y) eqn:Ey.
        -- split; [|eauto]. intros _. now exists [], x, y, s.
        -- specialize (IH (Some x)).
           destruct (search re_camelCase (Some x) (y :: s)) as [[[[? ?] ?] ?]|].
           ++ split; [|eauto]. intros _.
              destruct (proj1 IH) as (u & a & b & v & H & Ha & Hb); [eauto|].
              exists (x :: u), a, b, v. simpl. now rewrite H.
           ++ split; [intros [? ?]; discriminate|].
              intros (u & a & b & v & H & Ha & Hb). destruct u as [|c u].
              ** injection H as <- <- <-. congruence.
              ** injection H as <- H. apply IH. now exists u, a, b, v.
    + specialize (IH (Some x)).
      destruct (search re_camelCase (Some x) s) as [[[[? ?] ?] ?]|].
      * split; [|eauto]. intros _.
        destruct (proj1 IH) as (u & a & b & v & H & Ha & Hb); [eauto|].
        exists (x :: u), a, b, v. simpl. now rewrite H.
      * split; [intros [? ?]; discriminate|].
        intros (u & a & b & v & H & Ha & Hb). destruct u as [|c u].
        -- injection H as <- _. congruence.
        -- injection H as <- H. apply IH. now exists u, a, b, v.
Qed.

Lemma re_test_camelCase (s : jstring) :
  re_test re_camelCase s = true <-> camel_case s.
Proof.
  rewrite <- (search_camelCase s None). unfold re_test.
  destruct (search _ _ _); split; eauto; try discriminate.
  intros [? ?]; discriminate.
Qed.

Lemma re_test_framework_starts (s : jstring) :
  re_test re_framework s = existsb (startsWith s) framework_prefixes.
Proof.
  unfold re_framework. rewrite re_test_anchored. unfold exec_at.
  cbn [rmatch bol m_prev m_rest m_caps framework_prefixes existsb].
  rewrite !rmatch_lit.
  repeat (match goal with
          | |- context [startsWith s ?w] => destruct (startsWith s w); try reflexivity
          end).
Qed.

Lemma re_test_framework (s : jstring) :
  re_test re_framework s = true <-> framework_reserved s.
Proof.
  rewrite re_test_framework_starts, existsb_exists. unfold framework_reserved.
  split.
  - intros (p & Hp & H). apply startsWith_iff in H as [r ->]. now exists p, r.
  - intros (p & r & Hp & ->). exists p. split; [assumption | apply startsWith_app].
Qed.

End ClassifierPatterns.

(** * The classifier *)

Section Classifier.

Variable this : TailwindPrefixBot.

Lemma base_class_code (className base : jstring) :
  base_class_of className base ->
  (if negb (lastIndexOf className (str ":") =? -1)%Z
   then substring className (lastIndexOf className (str ":") + 1) None
   else className) = base.
Proof.
  intros [Hb [->|[m ->]]].
  - now rewrite lastIndexOf_colon_absent.
  - rewrite lastIndexOf_colon_present by assumption.
    replace (Z.of_nat (length m) =? -1)%Z with false
      by (symmetry; apply Z.eqb_neq; lia).
    cbn [negb].
    replace (Z.of_nat (length m) + 1)%Z with (Z.of_nat (length (m ++ [ch_colon])))
      by (rewrite length_app; simpl; lia).
    change (m ++ ch_colon :: base) with (m ++ [ch_colon] ++ base).
    rewrite app_assoc. apply substring_from.
Qed.

Lemma stripped_code (base c : jstring) :
  stripped_of_bang base c ->
  (if startsWith base (str "!") then substring base 1 None else base) = c.
Proof.
  intros [->|[-> Hn]].
  - cbn [str list_ascii_of_string map startsWith]. apply substring_tail.
  - destruct base as [|x base]; [reflexivity|].
    cbn [str list_ascii_of_string map startsWith].
    destruct (x =? N_of_ascii "!")%N eqn:E; [|reflexivity].
    apply N.eqb_eq in E. subst x. now destruct (Hn base).
Qed.


Lemma stripped_exists (base : jstring) : exists c, stripped_of_bang base c.
Proof.
  destruct base as [|x base].
  - exists []. right. split; [reflexivity | discriminate].
  - destruct (N.eq_dec x ch_bang) as [->|Hx].
    + exists base. now left.
    + exists (x :: base). right. split; [reflexivity|].
      intros r H. injection H as H _. contradiction.
Qed.

(** The classifier computes the disjunction of the five tests on the
    stripped base class. *)
Lemma isNotTailwindClass_tests (className base c : jstring) :
  base_class_of className base -> stripped_of_bang base c ->
  isNotTailwindClass this className =
  array_includes (ignoreClasses this) c
  || (re_test re_camelCase c
      || (includes c (str "_") && negb (includes c (str "[")))
      || (re_test re_startsUpper c || includes c (str "__")
          || re_test re_startsDigit c || (length c <? 2))
      || re_test re_framework c).
Proof.
  intros Hb Hc. unfold isNotTailwindClass.
  rewrite (base_class_code _ _ Hb), (stripped_code _ _ Hc).
  now destruct (array_includes _ _).
Qed.

(** C3. The classifier returns [true] exactly when the class name, reduced
    to the part after its last colon and without a single leading
    exclamation mark, is in the ignore set, or has a lowercase letter
    followed by an uppercase one, or has an underscore and no opening
    bracket, or starts with an uppercase letter or a digit, is shorter
    than two code units or has a double underscore, or starts with one of
    [ng-], [v-], [data-], [aria-], [role-]. *)
Theorem isNotTailwindClass_spec (className base c : jstring) :
  base_class_of className base ->
  stripped_of_bang base c ->
  isNotTailwindClass this className = true
  <-> not_utility (ignoreClasses this) c.
Proof.
  intros Hb Hc. rewrite (isNotTailwindClass_tests _ _ _ Hb Hc).
  unfold not_utility, in_ignore_set, snake_case, custom_shape.
  rewrite !orb_true_iff, andb_true_iff, negb_true_iff.
  rewrite array_includes_In, re_test_camelCase, re_test_framework.
  unfold re_startsUpper, re_startsDigit. rewrite !re_test_starts.
  change (str "_") with [ch_underscore]. change (str "[") with [ch_lbracket].
  rewrite includes_char_In.
  assert (Hbr : includes c [ch_lbracket] = false <-> ~ In ch_lbracket c).
  { rewrite <- includes_char_In. now destruct (includes c [ch_lbracket]). }
  rewrite Hbr, Nat.ltb_lt.
  assert (Hdu : includes c (str "__") = true
                <-> exists u v, c = u ++ ch_underscore :: ch_underscore :: v).
  { apply includes_iff. }
  rewrite Hdu. tauto.
Qed.

End Classifier.

(** * The group and peer patterns *)

Section ModifierPattern.

Lemma derives_seq_inv (a b : regex) (s s2 : mstate) :
  derives (Seq a b) s s2 -> exists s1, derives a s s1 /\ derives b s1 s2.
Proof. inversion 1; subst; eauto. Qed.

Lemma derives_group_inv (i : nat) (a : regex) (s s' : mstate) :
  derives (Group i a) s s' ->
  exists s1, derives a s s1
             /\ s' = MState (m_prev s1) (m_rest s1) ((i, consumed s s1) :: m_caps s1).
Proof. inversion 1; subst; eauto. Qed.

Lemma derives_assert_inv (f : option char -> option char -> bool) (s s' : mstate) :
  derives (Assert f) s s' -> s' = s /\ f (m_prev s) (hd_error (m_rest s)) = true.
Proof. inversion 1; subst; auto. Qed.

Lemma derives_char_inv (p : char -> bool) (s s' : mstate) :
  derives (Char p) s s' ->
  exists c rest, m_rest s = c :: rest /\ p c = true
                 /\ s' = MState (Some c) rest (m_caps s).
Proof. inversion 1; subst; simpl; eauto. Qed.

Lemma derives_caps (r : regex) (s s' : mstate) :
  derives r s s' -> group_free r = true -> m_caps s' = m_caps s.
Proof.
  induction 1; simpl; intros G; try reflexivity;
    try (apply andb_true_iff in G as [G1 G2]).
  - rewrite IHderives2, IHderives1; auto.
  - auto.
  - auto.
  - rewrite IHderives2, IHderives1; auto.
  - discriminate.
Qed.

Lemma search_from_start (r : regex) (s : jstring) :
  search (Seq bol r) None s =
  match exec_at (Seq bol r) None s with
  | Some (len, caps) => Some ([], firstn len s, caps, skipn len s)
  | None => None
  end.
Proof.
  destruct s as [|x s]; cbn [search];
    destruct (exec_at _ _ _) as [[len caps]|]; try reflexivity.
  now rewrite search_anchored.
Qed.

(** What a match of [^(.*kw[^:]*:)(.+)$] captures: the two groups cover
    the whole string, the first ends with a colon and the second is not
    empty. *)
Lemma re_modifier_captures (kw s g a : jstring) :
  re_match2 (re_modifier kw) s = Some (g, a) ->
  s = g ++ a /\ (exists g', g = g' ++ [ch_colon]) /\ a <> [].
Proof.
  unfold re_match2, re_modifier. cbn [seq_of]. rewrite search_from_start.
  unfold exec_at.
  destruct (rmatch _ _ _) as [f|] eqn:E; [|discriminate].
  apply rmatch_sound in E as (sE & D & Hf). injection Hf as ->.
  apply derives_seq_inv in D as (s0 & D0 & D).
  apply derives_assert_inv in D0 as [-> _].
  apply derives_seq_inv in D as (s1' & D1 & D).
  apply derives_group_inv in D1 as (s1 & D1 & ->).
  apply derives_seq_inv in D as (s2' & D2 & D).
  apply derives_group_inv in D2 as (s2 & D2 & ->).
  apply derives_assert_inv in D as [-> Hend].
  cbn [m_prev m_rest m_caps] in *.
  (* the first group *)
  apply derives_seq_inv in D1 as (sa & Da & D1).
  apply derives_seq_inv in D1 as (sb & Db & D1).
  apply derives_seq_inv in D1 as (sc & Dc & D1).
  apply derives_char_inv in D1 as (c & rest1 & Hc & Hcolon & ->).
  apply N.eqb_eq in Hcolon. subst c.
  apply derives_reads in Da as [w1 Ea], Db as [w2 Eb], Dc as [w3 Ec].
  cbn [m_rest] in Ea. rewrite Eb, Ec, Hc in Ea.
  (* the second group *)
  pose proof (derives_caps _ _ _ D2 eq_refl) as Hcaps. cbn [m_caps] in Hcaps.
  apply derives_seq_inv in D2 as (sd & Dd & D2).
  apply derives_char_inv in Dd as (d & rest2 & Hd & _ & ->).
  apply derives_reads in D2 as [w4 E4]. cbn [m_rest] in Hd, E4.
  destruct (m_rest s2) as [|? ?] eqn:E2; [|discriminate].
  rewrite app_nil_r in E4. subst rest2.
  rewrite Hcaps. cbn [capture Nat.eqb].
  intros H. injection H as <- <-.
  assert (Eg : consumed (MState None s []) (MState (Some ch_colon) rest1 (m_caps sc))
               = (w1 ++ w2 ++ w3) ++ [ch_colon]).
  { rewrite Ea. rewrite <- (consumed_app None (Some ch_colon)
                              ((w1 ++ w2 ++ w3) ++ [ch_colon]) rest1 [] (m_caps sc)).
    f_equal. f_equal. now rewrite <- !app_assoc. }
  assert (Ea2 : consumed (MState (Some ch_colon) rest1
                            ((1, consumed (MState None s [])
                                   (MState (Some ch_colon) rest1 (m_caps sc)))
                             :: m_caps sc)) s2 = rest1).
  { unfold consumed. cbn [m_rest]. rewrite E2. simpl.
    rewrite Nat.sub_0_r. apply firstn_all. }
  rewrite Ea2, Eg. repeat split.
  - rewrite Ea. now rewrite <- !app_assoc.
  - now exists (w1 ++ w2 ++ w3).
  - rewrite Hd. discriminate.
Qed.

End ModifierPattern.

(** * The rewriter *)

Section Rewriter.

Variable this : TailwindPrefixBot.

Lemma ModifierChain_ends (m : jstring) : ModifierChain m -> ends_chain m.
Proof.
  induction 1 as [|ident m _ _ [->|[m' ->]]].
  - now left.
  - right. now exists ident.
  - right. exists (ident ++ ch_colon :: m').
    now rewrite <- app_assoc.
Qed.

Lemma base_class_of_chain (m b : jstring) :
  ends_chain m -> ~ In ch_colon b -> base_class_of (m ++ b) b.
Proof.
  intros [->|[m' ->]] Hb; split; try assumption.
  - now left.
  - right. exists m'. now rewrite <- app_assoc.
Qed.

(** Every string is a chain end followed by a base class. *)
Lemma chain_split (s : jstring) :
  exists m b, s = m ++ b /\ ends_chain m /\ ~ In ch_colon b.
Proof.
  destruct (last_colon_cases s) as [H|(m & b & -> & H)].
  - exists [], s. repeat split; [now left | assumption].
  - exists (m ++ [ch_colon]), b. repeat split.
    + now rewrite <- app_assoc.
    + right. now exists m.
    + assumption.
Qed.

Lemma ends_chain_app (g m : jstring) :
  ends_chain g -> ends_chain m -> ends_chain (g ++ m).
Proof.
  intros Hg [->|[m' ->]].
  - now rewrite app_nil_r.
  - right. exists (g ++ m'). now rewrite app_assoc.
Qed.

(** The classifier looks at the base class only. *)
Lemma isNotTailwindClass_base (x y base : jstring) :
  base_class_of x base -> base_class_of y base ->
  isNotTailwindClass this x = isNotTailwindClass this y.
Proof.
  intros Hx Hy. destruct (stripped_exists base) as [c Hc].
  rewrite (isNotTailwindClass_tests this x base c Hx Hc).
  now rewrite (isNotTailwindClass_tests this y base c Hy Hc).
Qed.

(** The rewriting of a base class: the prefix goes after a leading
    exclamation mark. *)
Lemma prefix_last_segment_chain (m b : jstring) :
  ends_chain m -> ~ In ch_colon b ->
  prefix_last_segment this (m ++ b) = m ++ prefix_last_segment this b.
Proof.
  intros Hm Hb. unfold prefix_last_segment at 2.
  rewrite (lastIndexOf_colon_absent b Hb). cbn [Z.eqb].
  destruct Hm as [->|[m' ->]].
  - unfold prefix_last_segment. cbn [app].
    now rewrite (lastIndexOf_colon_absent b Hb).
  - unfold prefix_last_segment. rewrite <- app_assoc. cbn [app].
    rewrite (lastIndexOf_colon_present m' b Hb).
    replace (Z.of_nat (length m') =? -1)%Z with false
      by (symmetry; apply Z.eqb_neq; lia).
    replace (Z.of_nat (length m') + 1)%Z with (Z.of_nat (length (m' ++ [ch_colon])))
      by (rewrite length_app; simpl; lia).
    change (m' ++ ch_colon :: b) with (m' ++ [ch_colon] ++ b).
    rewrite app_assoc, substring_from, substring_upto.
    destruct (startsWith b (str "!")); now rewrite <- ?app_assoc.
Qed.

Lemma prefix_last_segment_includes (x : jstring) :
  includes (prefix_last_segment this x) (prefix this) = true.
Proof.
  unfold prefix_last_segment.
  destruct (_ =? _)%Z; destruct (startsWith _ _).
  - apply includes_middle.
  - apply (includes_middle []).
  - rewrite (app_assoc _ (str "!")). apply includes_middle.
  - apply includes_middle.
Qed.

Lemma modifier_match_captures (kw s g a : jstring) :
  modifier_match kw s = Some (g, a) ->
  s = g ++ a /\ (exists g', g = g' ++ [ch_colon]) /\ a <> [].
Proof.
  unfold modifier_match. destruct (includes s kw); [|discriminate].
  apply re_modifier_captures.
Qed.

(** One step of the group or peer case leaves the result as if the last
    segment had been rewritten directly. *)
Lemma modifier_step (g a : jstring) :
  (exists g', g = g' ++ [ch_colon]) -> a <> [] ->
  isNotTailwindClass this (g ++ a) = isNotTailwindClass this a
  /\ prefix_last_segment this (g ++ a) = g ++ prefix_last_segment this a.
Proof.
  intros Hg Ha. destruct (chain_split a) as (m & b & -> & Hm & Hb).
  assert (Hgm : ends_chain (g ++ m)) by (apply ends_chain_app; [now right | assumption]).
  rewrite app_assoc. split.
  - apply isNotTailwindClass_base with (base := b); now apply base_class_of_chain.
  - rewrite !prefix_last_segment_chain by assumption. now rewrite app_assoc.
Qed.

(** With enough fuel the rewriter returns, and what it returns is the
    token itself or the token with its last segment prefixed. *)
Lemma addPrefixFuel_closed (fuel : nat) :
  forall className,
    length className < fuel ->
    addPrefixFuel this fuel className =
    Some (if includes className (prefix this) then className
          else if isNotTailwindClass this className then className
          else prefix_last_segment this className).
Proof.
  induction fuel as [|fuel IH]; intros className Hlen; [lia|].
  cbn [addPrefixFuel].
  destruct (includes className (prefix this)) eqn:Hinc; [reflexivity|].
  destruct (isNotTailwindClass this className) eqn:Hnot; [reflexivity|].
  assert (Hrec : forall kw g a,
             modifier_match kw className = Some (g, a) ->
             option_map (app g) (addPrefixFuel this fuel a)
             = Some (prefix_last_segment this className)).
  { intros kw g a Hm. apply modifier_match_captures in Hm as (-> & Hg & Ha).
    destruct (modifier_step g a Hg Ha) as [Hn Hp].
    rewrite IH.
    - rewrite (includes_suffix_false g a _ Hinc), <- Hn, Hnot. simpl.
      now rewrite Hp.
    - rewrite length_app in Hlen. destruct Hg as [g' ->].
      rewrite length_app in Hlen. simpl in Hlen. lia. }
  destruct (modifier_match (str "group-") className) as [[g a]|] eqn:Hg.
  - now apply (Hrec (str "group-")).
  - destruct (modifier_match (str "peer-") className) as [[g a]|] eqn:Hp.
    + now apply (Hrec (str "peer-")).
    + reflexivity.
Qed.

Lemma addPrefixToClass_closed (className : jstring) :
  addPrefixToClass this className =
  if includes className (prefix this) then className
  else if isNotTailwindClass this className then className
  else prefix_last_segment this className.
Proof.
  unfold addPrefixToClass. now rewrite addPrefixFuel_closed by lia.
Qed.

(** The rewriter satisfies the recursive equation of the source. *)
Lemma addPrefixToClass_unfold (className : jstring) :
  addPrefixToClass this className =
  if includes className (prefix this) then className
  else if isNotTailwindClass this className then className
  else match modifier_match (str "group-") className with
       | Some (groupPrefix, actualClass) =>
           groupPrefix ++ addPrefixToClass this actualClass
       | None =>
           match modifier_match (str "peer-") className with
           | Some (peerPrefix, actualClass) =>
               peerPrefix ++ addPrefixToClass this actualClass
           | None => prefix_last_segment this className
           end
       end.
Proof.
  unfold addPrefixToClass at 1. cbn [addPrefixFuel].
  destruct (includes className (prefix this)); [reflexivity|].
  destruct (isNotTailwindClass this className); [reflexivity|].
  assert (Hrec : forall kw g a,
             modifier_match kw className = Some (g, a) ->
             match option_map (app g) (addPrefixFuel this (length className) a) with
             | Some processed => processed
             | None => className
             end = g ++ addPrefixToClass this a).
  { intros kw g a Hm. apply modifier_match_captures in Hm as (-> & [g' ->] & Ha).
    rewrite addPrefixFuel_closed
      by (rewrite !length_app; simpl; lia).
    simpl. now rewrite addPrefixToClass_closed. }
  destruct (modifier_match (str "group-") className) as [[g a]|] eqn:Hg.
  - now apply (Hrec (str "group-")).
  - destruct (modifier_match (str "peer-") className) as [[g a]|] eqn:Hp.
    + now apply (Hrec (str "peer-")).
    + reflexivity.
Qed.

End Rewriter.

(** * Properties of the rewriter *)

Section RewriterProperties.

Variable this : TailwindPrefixBot.

(** C1. For a modifier chain [m] and an eligible base class [b] (no colon,
    classified a utility class, the token free of the prefix), the rewriter
    keeps [m] and puts the prefix in front of [b], after the exclamation
    mark when [b] starts with one. *)
Theorem addPrefixToClass_modifier_chain (m b : jstring) :
  ModifierChain m ->
  ~ In ch_colon b ->
  isNotTailwindClass this b = false ->
  includes (m ++ b) (prefix this) = false ->
  (forall b', b = ch_bang :: b' ->
              addPrefixToClass this (m ++ b) = m ++ [ch_bang] ++ prefix this ++ b')
  /\ ((forall b', b <> ch_bang :: b') ->
      addPrefixToClass this (m ++ b) = m ++ prefix this ++ b).
Proof.
  intros Hm Hb Hnot Hinc. apply ModifierChain_ends in Hm.
  assert (E : addPrefixToClass this (m ++ b) = m ++ prefix_last_segment this b).
  { rewrite addPrefixToClass_closed, Hinc.
    rewrite (isNotTailwindClass_base this (m ++ b) b b), Hnot.
    - now apply prefix_last_segment_chain.
    - now apply base_class_of_chain.
    - apply (base_class_of_chain [] b); [now left | assumption]. }
  rewrite E. unfold prefix_last_segment.
  rewrite (lastIndexOf_colon_absent b Hb). cbn [Z.eqb]. split.
  - intros b' ->. cbn [str list_ascii_of_string map startsWith].
    change (N_of_ascii "!") with ch_bang. rewrite N.eqb_refl. cbn [andb].
    now rewrite substring_tail.
  - intros Hn. destruct b as [|x b]; [reflexivity|].
    cbn [str list_ascii_of_string map startsWith].
    destruct (x =? N_of_ascii "!")%N eqn:Ex; [|reflexivity].
    apply N.eqb_eq in Ex. subst x. now destruct (Hn b).
Qed.

(** C2. Rewriting twice is rewriting once, and a token that contains the
    prefix anywhere is returned unchanged. *)
Theorem addPrefixToClass_idempotent (x : jstring) :
  addPrefixToClass this (addPrefixToClass this x) = addPrefixToClass this x
  /\ (includes x (prefix this) = true -> addPrefixToClass this x = x).
Proof.
  split.
  - rewrite (addPrefixToClass_closed this x).
    destruct (includes x (prefix this)) eqn:Hinc.
    + now rewrite addPrefixToClass_closed, Hinc.
    + destruct (isNotTailwindClass this x) eqn:Hnot.
      * now rewrite addPrefixToClass_closed, Hinc, Hnot.
      * now rewrite addPrefixToClass_closed, prefix_last_segment_includes.
  - intros Hinc. now rewrite addPrefixToClass_closed, Hinc.
Qed.

(** C8. The rewriter terminates on every token: some result is returned
    for every bound above the length of the token; a group or peer match
    splits the token into two non-empty parts, so the recursive call is on
    a strictly shorter string; and without such a match no recursive call
    is made. *)
Theorem addPrefixToClass_terminates (className : jstring) :
  (exists processed,
      forall fuel, length className < fuel ->
                   addPrefixFuel this fuel className = Some processed)
  /\ (forall kw groupPrefix actualClass,
         modifier_match kw className = Some (groupPrefix, actualClass) ->
         groupPrefix <> [] /\ actualClass <> []
         /\ className = groupPrefix ++ actualClass
         /\ length actualClass < length className)
  /\ (modifier_match (str "group-") className = None ->
      modifier_match (str "peer-") className = None ->
      exists processed, addPrefixFuel this 1 className = Some processed).
Proof.
  split; [|split].
  - eexists. intros fuel Hlen. now apply addPrefixFuel_closed.
  - intros kw g a Hm. apply modifier_match_captures in Hm as (-> & [g' ->] & Ha).
    repeat split.
    + now destruct g'.
    + assumption.
    + rewrite !length_app. simpl. lia.
  - intros Hg Hp. cbn [addPrefixFuel]. rewrite Hg, Hp.
    destruct (includes _ _); [eauto|]. destruct (isNotTailwindClass _ _); eauto.
Qed.

End RewriterProperties.

Lemma isNotTailwindClass_spec_witness :
  base_class_of (str "hover:!myButton") (str "!myButton")
  /\ stripped_of_bang (str "!myButton") (str "myButton")
  /\ (isNotTailwindClass tw (str "hover:!myButton") = true
      <-> not_utility (ignoreClasses tw) (str "myButton")).
Proof.
  assert (Hb : base_class_of (str "hover:!myButton") (str "!myButton")).
  { split.
    - cbv. intuition discriminate.
    - right. now exists (str "hover"). }
  assert (Hc : stripped_of_bang (str "!myButton") (str "myButton")) by now left.
  split; [exact Hb | split; [exact Hc|]].
  exact (isNotTailwindClass_spec tw _ _ _ Hb Hc).
Defined.

Lemma addPrefixToClass_modifier_chain_witness :
  addPrefixToClass tw (str "hover:!-translate-x-2") = str "hover:!tw--translate-x-2"
  /\ addPrefixToClass tw (str "md:hover:bg-red-500") = str "md:hover:tw-bg-red-500".
Proof.
  split.
  - apply (addPrefixToClass_modifier_chain tw (str "hover:") (str "!-translate-x-2")).
    + apply (chain_segment (str "hover") []); [|constructor].
      cbv. intuition discriminate.
    + cbv. intuition discriminate.
    + vm_compute. reflexivity.
    + vm_compute. reflexivity.
    + reflexivity.
  - apply (addPrefixToClass_modifier_chain tw (str "md:hover:") (str "bg-red-500")).
    + apply (chain_segment (str "md") (str "hover:")).
      * cbv. intuition discriminate.
      * apply (chain_segment (str "hover") []); [|constructor].
        cbv. intuition discriminate.
    + cbv. intuition discriminate.
    + vm_compute. reflexivity.
    + vm_compute. reflexivity.
    + intros b' H. discriminate.
Defined.

Lemma addPrefixToClass_idempotent_witness :
  includes (str "two-bg-red-500") (str "two-") = true
  /\ addPrefixToClass (Bot (str "two-") [] (str "info") (Stats 0 0 0 0))
       (str "two-bg-red-500") = str "two-bg-red-500".
Proof.
  split; [reflexivity|].
  apply (proj2 (addPrefixToClass_idempotent
                  (Bot (str "two-") [] (str "info") (Stats 0 0 0 0))
                  (str "two-bg-red-500"))).
  reflexivity.
Defined.

Lemma addPrefixToClass_terminates_witness :
  length (str "group-hover:opacity-50") < 23
  /\ exists processed,
       addPrefixFuel tw 23 (str "group-hover:opacity-50") = Some processed.
Proof.
  assert (H : length (str "group-hover:opacity-50") < 23) by (vm_compute; lia).
  split; [exact H|].
  destruct (proj1 (addPrefixToClass_terminates tw (str "group-hover:opacity-50")))
    as [processed Hp].
  exists processed. exact (Hp 23 H).
Defined.

(** * Global replacement *)

Section GlobalReplace.

Variable r : regex.



Variable f : jstring -> jstring -> jstring.






End GlobalReplace.

(** * Equations of the matcher *)

Section MatcherEquations.

Variables (s : mstate) (k : mstate -> option mstate).

Lemma rmatch_Seq (a b : regex) :
  rmatch (Seq a b) s k = rmatch a s (fun s' => rmatch b s' k).
Proof. reflexivity. Qed.

Lemma rmatch_Group (i : nat) (a : regex) :
  rmatch (Group i a) s k =
  rmatch a s (fun s' =>
    k (MState (m_prev s') (m_rest s') ((i, consumed s s') :: m_caps s'))).
Proof. reflexivity. Qed.

Lemma rmatch_Assert (f : option char -> option char -> bool) :
  rmatch (Assert f) s k =
  if f (m_prev s) (hd_error (m_rest s)) then k s else None.
Proof. reflexivity. Qed.

Lemma rmatch_Alt (a b : regex) :
  rmatch (Alt a b) s k =
  match rmatch a s k with Some f => Some f | None => rmatch b s k end.
Proof. reflexivity. Qed.

Lemma rmatch_Char (p : char -> bool) :
  rmatch (Char p) s k =
  match m_rest s with
  | c :: rest => if p c then k (MState (Some c) rest (m_caps s)) else None
  | [] => None
  end.
Proof. reflexivity. Qed.

End MatcherEquations.

Lemma take_while_app_stops (p : char -> bool) (u v : jstring) :
  stops p v = true -> take_while p (u ++ v) = take_while p u.
Proof.
  intros Hv. induction u as [|c u IH]; simpl.
  - destruct v as [|x v]; [reflexivity|]. simpl in *.
    apply negb_true_iff in Hv. now rewrite Hv.
  - destruct (p c); [now rewrite IH | reflexivity].
Qed.

Lemma take_while_run (p : char -> bool) (u v : jstring) :
  forallb p u = true -> stops p v = true -> take_while p (u ++ v) = u.
Proof.
  intros Hu Hv. rewrite take_while_app_stops by assumption.
  induction u as [|c u IH]; [reflexivity|].
  simpl in *. apply andb_true_iff in Hu as [-> Hu]. now rewrite IH.
Qed.

Lemma app_same_length (a b c d : jstring) :
  a ++ b = c ++ d -> length a = length c -> a = c /\ b = d.
Proof.
  revert c. induction a as [|x a IH]; intros [|y c] H L; try discriminate.
  - now split.
  - injection H as -> H. injection L as L. destruct (IH c H L) as [-> ->].
    now split.
Qed.

(** * Locality of a scan *)

Section ScanLocality.

Variable r : regex.

Lemma scan_skip :
  forall u v prev, scan r prev (u ++ v) (length u) = scan r (prev_after prev u) v 0.
Proof.
  induction u as [|c u IH]; intros v prev.
  - reflexivity.
  - cbn [app length scan]. now rewrite IH.
Qed.

Lemma scan_app (b : jstring) :
  forall a prev skip,
    skip <= length a ->
    (forall a1 a2, a = a1 ++ a2 -> a2 <> [] ->
                   exec_at r (prev_after prev a1) (a2 ++ b)
                   = exec_at r (prev_after prev a1) a2) ->
    exec_at r (prev_after prev a) [] = None ->
    scan r prev (a ++ b) skip
    = scan r prev a skip ++ scan r (prev_after prev a) b 0.
Proof.
  induction a as [|c a IH]; intros prev skip Hs Hloc Hend.
  - destruct skip; [|simpl in Hs; lia].
    change (exec_at r prev [] = None) in Hend.
    cbn [app scan]. now rewrite Hend.
  - assert (Hloc' : forall a1 a2, a = a1 ++ a2 -> a2 <> [] ->
                      exec_at r (prev_after (Some c) a1) (a2 ++ b)
                      = exec_at r (prev_after (Some c) a1) a2).
    { intros a1 a2 -> Ha2. apply (Hloc (c :: a1) a2); [reflexivity | assumption]. }
    destruct skip as [|n].
    + cbn [app scan].
      pose proof (Hloc [] (c :: a) eq_refl ltac:(discriminate)) as E0.
      cbn [prev_after fold_left app] in E0. rewrite E0.
      destruct (exec_at r prev (c :: a)) as [[[|n] caps]|] eqn:E.
      * cbn [app]. now rewrite IH by (auto; lia).
      * apply exec_at_length in E.
        rewrite IH by (auto; simpl in E; lia).
        change (c :: a ++ b) with ((c :: a) ++ b).
        rewrite firstn_app.
        replace (S n - length (c :: a)) with 0 by lia.
        cbn [firstn]. now rewrite app_nil_r.
      * cbn [app]. now rewrite IH by (auto; lia).
    + cbn [app scan]. apply IH; auto. simpl in Hs. lia.
Qed.

Lemma scan_unmatched :
  forall s prev,
    (forall a1 a2, s = a1 ++ a2 -> exec_at r (prev_after prev a1) a2 = None) ->
    scan r prev s 0 = map Lit s.
Proof.
  induction s as [|c s IH]; intros prev H.
  - pose proof (H [] [] eq_refl) as E.
    change (exec_at r prev [] = None) in E. simpl. now rewrite E.
  - pose proof (H [] (c :: s) eq_refl) as E.
    change (exec_at r prev (c :: s) = None) in E.
    cbn [scan map]. rewrite E. f_equal.
    apply IH. intros a1 a2 ->. apply (H (c :: a1) a2). reflexivity.
Qed.

Lemma flat_map_render_Lit (f : jstring -> jstring -> jstring) (s : jstring) :
  flat_map (render f) (map Lit s) = s.
Proof. induction s as [|c s IH]; simpl; [reflexivity | now rewrite IH]. Qed.

End ScanLocality.


(** * Stylesheet selectors *)

Lemma exec_at_cssSelector (prev : option char) (s : jstring) :
  exec_at re_cssSelector prev s =
  if selector_lookbehind prev then
    match s with
    | c :: rest =>
        if (ch_dot =? c)%N then
          match take_while is_ident rest with
          | [] => None
          | run => Some (S (length run), [(1, run)])
          end
        else None
    | [] => None
    end
  else None.
Proof.
  unfold exec_at, re_cssSelector, Plus, lit_char. cbn [seq_of].
  rewrite rmatch_Seq, rmatch_Assert. cbn [m_prev].
  destruct (selector_lookbehind prev); [|reflexivity].
  rewrite rmatch_Seq, rmatch_Char. cbn [m_rest m_caps].
  destruct s as [|c rest]; [reflexivity|].
  destruct (ch_dot =? c)%N; [|reflexivity].
  rewrite rmatch_Group, rmatch_Seq, rmatch_Char. cbn [m_rest m_caps].
  destruct rest as [|x rest]; [reflexivity|].
  cbn [take_while]. destruct (is_ident x) eqn:Ex; [|reflexivity].
  pose proof (take_drop_while is_ident rest) as Hr.
  pose proof (take_while_all is_ident rest) as Hall.
  pose proof (drop_while_stops is_ident rest) as Hstop.
  remember (take_while is_ident rest) as run.
  remember (drop_while is_ident rest) as tail.
  subst rest. rewrite rmatch_star_char.
  erewrite greedy_max; [ | exact Hall | exact Hstop | reflexivity ].
  cbn [m_rest m_caps].
  rewrite (consumed_app (Some c) _ (x :: run) tail).
  f_equal. f_equal. cbn [length]. rewrite length_app. lia.
Qed.


Section CssSelectors.

Variable this : TailwindPrefixBot.

Lemma selector_position_lookbehind (pre : jstring) :
  selector_position pre <-> selector_lookbehind (prev_after None pre) = true.
Proof.
  unfold selector_position, selector_lookbehind, at_line_start. split.
  - intros [->|(pre' & x & -> & H)]; [reflexivity|].
    rewrite prev_after_last.
    destruct H as [H|[H|[->| ->]]]; rewrite ?H, ?orb_true_r; reflexivity.
  - destruct pre as [|c pre] using rev_ind; [now left|].
    rewrite prev_after_last. intros H. right. exists pre, c.
    split; [reflexivity|].
    rewrite !orb_true_iff, !N.eqb_eq in H. tauto.
Qed.

Lemma exec_at_cssSelector_local (prev : option char) (a c post : jstring) :
  a <> [] ->
  exec_at re_cssSelector prev (a ++ ch_dot :: c ++ post)
  = exec_at re_cssSelector prev a.
Proof.
  intros Ha. rewrite !exec_at_cssSelector.
  destruct a as [|x a]; [contradiction|]. cbn [app].
  now rewrite take_while_app_stops by reflexivity.
Qed.

Lemma exec_at_cssSelector_hit (prev : option char) (c post : jstring) :
  selector_lookbehind prev = true -> c <> [] ->
  forallb is_ident c = true -> stops is_ident post = true ->
  exec_at re_cssSelector prev (ch_dot :: c ++ post)
  = Some (S (length c), [(1, c)]).
Proof.
  intros Hp Hc Hall Hstop. rewrite exec_at_cssSelector, Hp, N.eqb_refl.
  rewrite take_while_run by assumption. now destruct c.
Qed.

(** C5. A dot at the start of a line or after white space, a comma or an
    opening brace, followed by a maximal run [c] of [[A-Za-z0-9_-]], is
    left alone when [c] is in the ignore list or starts with the prefix and
    becomes [.] + prefix + [c] otherwise, whatever the classifier says of
    [c]; the text before and after is processed on its own. *)
Theorem processCssSelectors_occurrence (pre c post : jstring) :
  selector_position pre ->
  c <> [] -> forallb is_ident c = true -> stops is_ident post = true ->
  processCssSelectors this (pre ++ ch_dot :: c ++ post)
  = processCssSelectors this pre
    ++ (if array_includes (ignoreClasses this) c || startsWith c (prefix this)
        then ch_dot :: c
        else ch_dot :: prefix this ++ c)
    ++ replace_all_from re_cssSelector (cssSelector_callback this)
         (prev_after None c) post
  /\ (isNotTailwindClass tw (str "myButton") = true
      /\ processCssSelectors tw (str ".myButton") = str ".tw-myButton").
Proof.
  intros Hpre Hc Hall Hstop. split; [|split; vm_compute; reflexivity].
  apply selector_position_lookbehind in Hpre.
  unfold processCssSelectors, replace_all, replace_all_from, matches.
  rewrite scan_app.
  - rewrite flat_map_app. f_equal.
    cbn [scan]. rewrite exec_at_cssSelector_hit by assumption.
    cbn [flat_map render first_capture capture Nat.eqb].
    rewrite scan_skip. f_equal.
    + cbn [firstn]. rewrite firstn_app, firstn_all, Nat.sub_diag. cbn [firstn].
      rewrite app_nil_r. unfold cssSelector_callback.
      destruct (array_includes _ _); [reflexivity|].
      now destruct (startsWith _ _).
    + destruct c as [|y c]; [contradiction|]. reflexivity.
  - lia.
  - intros a1 a2 _ Ha2. now apply exec_at_cssSelector_local.
  - rewrite exec_at_cssSelector. now destruct (selector_lookbehind _).
Qed.
End CssSelectors.

(** * The apply directive *)

Section ApplyDirectives.

Variable this : TailwindPrefixBot.

Lemma exec_at_apply_none (prev : option char) (s : jstring) :
  startsWith s (str "@apply") = false -> exec_at re_apply prev s = None.
Proof.
  intros H. unfold exec_at, re_apply. cbn [seq_of].
  now rewrite rmatch_Seq, rmatch_lit, H.
Qed.

Lemma rmatch_opt_semi (prev : option char) (semi post : jstring)
    (caps : list (nat * jstring)) :
  directive_end semi post ->
  exists p',
    rmatch (Opt (lit_char ch_semi)) (MState prev (semi ++ post) caps) Some
    = Some (MState p' post caps).
Proof.
  intros Hend. unfold Opt, lit_char. rewrite rmatch_Alt, rmatch_Char.
  cbn [m_rest m_caps].
  destruct Hend as [->|[-> [->|(x & post' & -> & [->| ->])]]];
    cbn [app]; rewrite ?N.eqb_refl; eexists; reflexivity.
Qed.

Lemma exec_at_apply_hit (prev : option char) (ws cls semi post : jstring) :
  ws <> [] -> forallb is_space ws = true ->
  cls <> [] -> forallb not_terminator cls = true -> stops is_space cls = true ->
  directive_end semi post ->
  exec_at re_apply prev (str "@apply" ++ ws ++ cls ++ semi ++ post)
  = Some (length (str "@apply" ++ ws ++ cls ++ semi), [(1, cls)]).
Proof.
  intros Hws Hsp Hcls Hnt Hhead Hend.
  unfold exec_at, re_apply, Plus. cbn [seq_of].
  rewrite rmatch_Seq, rmatch_lit, startsWith_app.
  rewrite skipn_app, skipn_all, Nat.sub_diag. cbn [skipn app].
  destruct ws as [|w0 ws]; [contradiction|].
  destruct cls as [|c0 cls]; [contradiction|].
  cbn [forallb] in Hsp, Hnt. apply andb_true_iff in Hsp as [Hw0 Hsp].
  apply andb_true_iff in Hnt as [Hc0 Hnt].
  rewrite !rmatch_Seq, rmatch_Char. cbn [m_rest m_caps app]. rewrite Hw0.
  rewrite rmatch_star_char.
  assert (HK : exists p',
             rmatch
               (Seq (Group 1 (Seq (Char not_terminator) (Star (Char not_terminator))))
                  (Opt (lit_char ch_semi)))
               (MState (prev_after (Some w0) ws) (c0 :: cls ++ semi ++ post) [])
               Some
             = Some (MState p' post [(1, c0 :: cls)])).
  { rewrite rmatch_Seq, rmatch_Group, rmatch_Seq, rmatch_Char.
    cbn [m_rest m_caps]. rewrite Hc0. rewrite rmatch_star_char.
    assert (Hstop : stops not_terminator (semi ++ post) = true).
    { destruct Hend as [->|[-> [->|(x & post' & -> & [->| ->])]]]; reflexivity. }
    destruct (rmatch_opt_semi (prev_after (Some c0) cls) semi post
                [(1, c0 :: cls)] Hend) as [p' Hopt].
    exists p'.
    erewrite greedy_max; [ reflexivity | exact Hnt | exact Hstop | ].
    cbn [m_prev m_rest m_caps].
    rewrite (consumed_app _ _ (c0 :: cls) (semi ++ post)). exact Hopt. }
  destruct HK as [p' HK].
  erewrite greedy_max; [ | exact Hsp | exact Hhead | exact HK ].
  cbn [m_rest m_caps]. f_equal. f_equal.
  repeat first [rewrite length_app | progress cbn [length]]. lia.
Qed.

Lemma startsWith_firstn (p s : jstring) :
  startsWith s p = startsWith (firstn (length p) s) p.
Proof.
  revert s. induction p as [|c p IH]; intros s; [reflexivity|].
  destruct s as [|x s]; [reflexivity|]. cbn [length firstn startsWith].
  now rewrite IH.
Qed.

Lemma startsWith_app_l (a x p : jstring) :
  startsWith a p = true -> startsWith (a ++ x) p = true.
Proof.
  intros H. apply startsWith_iff in H as [r ->]. apply startsWith_iff.
  exists (r ++ x). now rewrite app_assoc.
Qed.

(** No directive starts inside [pre], not even one that would end in the
    keyword that follows. *)
Lemma no_apply_inside (pre a1 a2 more : jstring) :
  includes (pre ++ str "@appl") (str "@apply") = false ->
  pre = a1 ++ a2 -> a2 <> [] ->
  startsWith (a2 ++ str "@apply" ++ more) (str "@apply") = false.
Proof.
  intros Hinc -> Ha2.
  rewrite <- app_assoc in Hinc. apply includes_suffix_false in Hinc.
  assert (H : startsWith (a2 ++ str "@appl") (str "@apply") = false).
  { destruct (startsWith (a2 ++ str "@appl") (str "@apply")) eqn:E; [|reflexivity].
    rewrite <- Hinc. destruct (a2 ++ str "@appl"); simpl in *; now rewrite E. }
  rewrite startsWith_firstn.
  replace (firstn (length (str "@apply")) (a2 ++ str "@apply" ++ more))
    with (firstn (length (str "@apply")) (a2 ++ str "@appl")).
  - now rewrite <- startsWith_firstn.
  - rewrite !firstn_app. f_equal.
    destruct a2 as [|x a2]; [contradiction|]. cbn [length].
    change (length (str "@apply")) with 6.
    destruct (6 - S (length a2)) as [|[|[|[|[|[|n]]]]]] eqn:E;
      try reflexivity. lia.
Qed.

Lemma scan_hit (r : regex) (prev : option char) (m rest : jstring)
    (caps : list (nat * jstring)) :
  m <> [] ->
  exec_at r prev (m ++ rest) = Some (length m, caps) ->
  scan r prev (m ++ rest) 0 = Hit m caps :: scan r (prev_after prev m) rest 0.
Proof.
  intros Hm E. destruct m as [|c m]; [contradiction|].
  cbn [app scan]. cbn [app length] in E. rewrite E.
  rewrite (scan_skip r m rest (Some c)). f_equal.
  cbn [firstn]. rewrite firstn_app, firstn_all, Nat.sub_diag. cbn [firstn].
  now rewrite app_nil_r.
Qed.

Lemma apply_unmatched (pre more : jstring) :
  includes (pre ++ str "@appl") (str "@apply") = false ->
  forall a1 a2, pre = a1 ++ a2 ->
    forall prev,
      exec_at re_apply prev a2 = None
      /\ (a2 <> [] -> exec_at re_apply prev (a2 ++ str "@apply" ++ more) = None).
Proof.
  intros Hinc a1 a2 E prev.
  destruct a2 as [|x a2].
  - split; [now apply exec_at_apply_none | contradiction].
  - pose proof (no_apply_inside pre a1 (x :: a2) more Hinc E ltac:(discriminate)) as H.
    split; [|intros _; now apply exec_at_apply_none].
    apply exec_at_apply_none.
    destruct (startsWith (x :: a2) (str "@apply")) eqn:S; [|reflexivity].
    now rewrite (startsWith_app_l _ (str "@apply" ++ more) _ S) in H.
Qed.

Lemma apply_substitute_first (pre ws cls semi post : jstring) :
  includes (pre ++ str "@appl") (str "@apply") = false ->
  ws <> [] -> forallb is_space ws = true ->
  cls <> [] -> forallb not_terminator cls = true -> stops is_space cls = true ->
  directive_end semi post ->
  apply_substitute this (pre ++ (str "@apply" ++ ws ++ cls ++ semi) ++ post)
  = pre
    ++ (str "@apply "
        ++ join (str " ") (map (apply_token this) (class_list cls))
        ++ str ";")
    ++ replace_all_from re_apply (apply_callback this)
         (prev_after None (cls ++ semi)) post.
Proof.
  intros Hinc Hws Hsp Hcls Hnt Hhead Hend.
  unfold apply_substitute, replace_all, replace_all_from, matches.
  assert (Hreg : forall prev,
             exec_at re_apply prev ((str "@apply" ++ ws ++ cls ++ semi) ++ post)
             = Some (length (str "@apply" ++ ws ++ cls ++ semi), [(1, cls)])).
  { intros prev. rewrite <- (exec_at_apply_hit prev ws cls semi post) by assumption.
    f_equal. now rewrite <- !app_assoc. }
  rewrite scan_app.
  - rewrite flat_map_app. f_equal.
    + rewrite scan_unmatched; [apply flat_map_render_Lit|].
      intros a1 a2 E.
      apply (apply_unmatched pre [] Hinc a1 a2 E).
    + rewrite scan_hit with (caps := [(1, cls)]); [|discriminate|apply Hreg].
      cbn [flat_map render first_capture capture Nat.eqb]. f_equal.
      f_equal. f_equal.
      rewrite !(app_assoc (str "@apply")), !(app_assoc _ cls).
      unfold prev_after. rewrite !fold_left_app.
      destruct semi as [|y semi]; [|reflexivity].
      destruct cls as [|c0 cls]; [contradiction|]. reflexivity.
  - lia.
  - intros a1 a2 E Ha2.
    rewrite <- !app_assoc.
    destruct (apply_unmatched pre (ws ++ cls ++ semi ++ post) Hinc a1 a2 E
                (prev_after None a1)) as [H1 H2].
    rewrite H1. now apply H2.
  - now apply exec_at_apply_none.
Qed.

Lemma exec_at_semicolons (prev : option char) (s : jstring) :
  exec_at re_semicolons prev s =
  match s with
  | c :: d :: rest =>
      if (ch_semi =? c)%N && (ch_semi =? d)%N
      then Some (2 + length (take_while (N.eqb ch_semi) rest), [])
      else None
  | _ => None
  end.
Proof.
  unfold exec_at, re_semicolons, Plus, lit_char.
  rewrite rmatch_Seq, rmatch_Char. cbn [m_rest m_caps].
  destruct s as [|c s]; [reflexivity|].
  destruct (ch_semi =? c)%N; [|now destruct s].
  rewrite rmatch_Seq, rmatch_Char. cbn [m_rest m_caps].
  destruct s as [|d rest]; [reflexivity|].
  destruct (ch_semi =? d)%N; [|reflexivity]. cbn [andb].
  pose proof (take_drop_while (N.eqb ch_semi) rest) as Hr.
  pose proof (take_while_all (N.eqb ch_semi) rest) as Hall.
  pose proof (drop_while_stops (N.eqb ch_semi) rest) as Hstop.
  remember (take_while (N.eqb ch_semi) rest) as run.
  remember (drop_while (N.eqb ch_semi) rest) as tail.
  subst rest. rewrite rmatch_star_char.
  erewrite greedy_max; [ | exact Hall | exact Hstop | reflexivity ].
  cbn [m_rest m_caps]. f_equal. f_equal.
  cbn [length]. rewrite length_app. lia.
Qed.

Lemma squeeze_run (tail : jstring) :
  stops (N.eqb ch_semi) tail = true ->
  forall run, forallb (N.eqb ch_semi) run = true ->
              squeeze (ch_semi :: run ++ tail) = ch_semi :: squeeze tail.
Proof.
  intros Ht. induction run as [|c run IH]; intros Hr.
  - cbn [app squeeze]. now rewrite Ht.
  - cbn [forallb] in Hr. apply andb_true_iff in Hr as [Hc Hr].
    apply N.eqb_eq in Hc. subst c.
    change (squeeze (ch_semi :: (ch_semi :: run) ++ tail))
      with (squeeze (ch_semi :: run ++ tail)).
    now apply IH.
Qed.

Lemma collapse_from_squeeze (n : nat) :
  forall s prev,
    length s <= n ->
    replace_all_from re_semicolons (fun _ _ => str ";") prev s = squeeze s.
Proof.
  unfold replace_all_from.
  induction n as [|n IH]; intros s prev Hn.
  - destruct s; [reflexivity | simpl in Hn; lia].
  - destruct s as [|c s]; [reflexivity|].
    destruct ((ch_semi =? c)%N && negb (stops (N.eqb ch_semi) s)) eqn:E.
    + apply andb_true_iff in E as [Ec Es]. apply N.eqb_eq in Ec. subst c.
      destruct s as [|d rest]; [discriminate|].
      cbn [stops] in Es. rewrite negb_involutive in Es.
      apply N.eqb_eq in Es. subst d.
      pose proof (take_drop_while (N.eqb ch_semi) rest) as Hr.
      pose proof (take_while_all (N.eqb ch_semi) rest) as Hall.
      pose proof (drop_while_stops (N.eqb ch_semi) rest) as Hstop.
      remember (take_while (N.eqb ch_semi) rest) as run.
      remember (drop_while (N.eqb ch_semi) rest) as tail.
      subst rest.
      change (ch_semi :: ch_semi :: run ++ tail)
        with ((ch_semi :: ch_semi :: run) ++ tail).
      rewrite scan_hit with (caps := []).
      * cbn [flat_map render]. rewrite IH.
        -- symmetry. apply (squeeze_run tail Hstop (ch_semi :: run)).
           cbn [forallb]. now rewrite N.eqb_refl.
        -- cbn [length] in Hn. rewrite length_app in Hn. lia.
      * discriminate.
      * rewrite exec_at_semicolons. cbn [app]. rewrite N.eqb_refl. cbn [andb].
        now rewrite take_while_run.
    + cbn [scan squeeze]. rewrite E.
      assert (Ex : exec_at re_semicolons prev (c :: s) = None).
      { rewrite exec_at_semicolons. destruct s as [|d rest]; [reflexivity|].
        cbn [stops] in E. rewrite negb_involutive in E. now rewrite E. }
      rewrite Ex. cbn [flat_map render app]. f_equal. apply IH.
      simpl in Hn. lia.
Qed.

Lemma collapse_semicolons_squeeze (content : jstring) :
  collapse_semicolons content = squeeze content.
Proof. apply (collapse_from_squeeze (length content)). lia. Qed.

Lemma search_Char (p : char -> bool) (s : jstring) :
  forall prev,
    match search (Char p) prev s with Some _ => true | None => false end
    = existsb p s.
Proof.
  induction s as [|c s IH]; intros prev; [reflexivity|].
  cbn [search existsb]. unfold exec_at. rewrite rmatch_Char. cbn [m_rest].
  destruct (p c); [reflexivity|]. cbn [orb]. rewrite <- (IH (Some c)).
  now destruct (search (Char p) (Some c) s) as [[[[? ?] ?] ?]|].
Qed.

Lemma apply_token_rule (className : jstring) :
  (In ch_lbrace className \/ In ch_rbrace className ->
   apply_token this className = className)
  /\ (~ (In ch_lbrace className \/ In ch_rbrace className) ->
      apply_token this className = addPrefixToClass this className).
Proof.
  unfold apply_token, re_test, re_brace. rewrite search_Char.
  destruct (existsb _ className) eqn:E.
  - split; [reflexivity|]. intros H. exfalso. apply H.
    apply existsb_exists in E as (x & Hx & Hb).
    apply orb_true_iff in Hb as [Hb|Hb]; apply N.eqb_eq in Hb; subst x; auto.
  - split; [|reflexivity]. intros H. exfalso.
    apply not_true_iff_false in E. apply E.
    apply existsb_exists.
    destruct H as [H|H]; eexists; (split; [exact H|]);
      rewrite N.eqb_refl; auto using orb_true_r.
Qed.

(** C6. In the first [@apply] directive of a text (keyword, white space,
    class list, then a semicolon, a brace or the end), every token of the
    class list goes through the rewriter unless it contains a brace, the
    region becomes [@apply ] + the tokens joined by single spaces + [;],
    the rest of the text is processed in the same way, and every run of
    semicolons in the result is reduced to one. *)
Theorem processApplyDirectives_directive (pre ws cls semi post : jstring) :
  includes (pre ++ str "@appl") (str "@apply") = false ->
  ws <> [] -> forallb is_space ws = true ->
  cls <> [] -> forallb not_terminator cls = true -> stops is_space cls = true ->
  directive_end semi post ->
  processApplyDirectives this (pre ++ (str "@apply" ++ ws ++ cls ++ semi) ++ post)
  = squeeze
      (pre
       ++ (str "@apply "
           ++ join (str " ") (map (apply_token this) (class_list cls))
           ++ str ";")
       ++ replace_all_from re_apply (apply_callback this)
            (prev_after None (cls ++ semi)) post)
  /\ (forall className,
         (In ch_lbrace className \/ In ch_rbrace className ->
          apply_token this className = className)
         /\ (~ (In ch_lbrace className \/ In ch_rbrace className) ->
             apply_token this className = addPrefixToClass this className))
  /\ processApplyDirectives tw (str "@apply flex items-center;")
     = str "@apply tw-flex tw-items-center;".
Proof.
  intros Hinc Hws Hsp Hcls Hnt Hhead Hend. split; [|split].
  - unfold processApplyDirectives.
    rewrite collapse_semicolons_squeeze.
    now rewrite apply_substitute_first.
  - apply apply_token_rule.
  - vm_compute. reflexivity.
Qed.

End ApplyDirectives.

(** * The extractors *)

Section Extractors.

Variable this : TailwindPrefixBot.




End Extractors.

(** The text below has no [@apply] directive, and yet
    [processApplyDirectives] changes it. *)
Lemma extractors_frame_counterexample :
  unmatched re_apply (str "p{color:red;;}")
  /\ processApplyDirectives tw (str "p{color:red;;}") = str "p{color:red;}"
  /\ processApplyDirectives tw (str "p{color:red;;}") <> str "p{color:red;;}".
Proof.
  split; [|split].
  - vm_compute. reflexivity.
  - vm_compute. reflexivity.
  - vm_compute. discriminate.
Qed.

(** * Configuration *)

Section Configuration.

Lemma exec_at_trailingHyphen (prev : option char) (s : jstring) :
  exec_at re_trailingHyphen prev s =
  match s with
  | [c] => if (ch_hyphen =? c)%N then Some (1, []) else None
  | _ => None
  end.
Proof.
  unfold exec_at, re_trailingHyphen, lit_char, eol.
  rewrite rmatch_Seq, rmatch_Char. cbn [m_rest m_caps].
  destruct s as [|c [|d s]]; try reflexivity.
  - destruct (ch_hyphen =? c)%N; reflexivity.
  - destruct (ch_hyphen =? c)%N; reflexivity.
Qed.

Lemma search_trailingHyphen_found (q : jstring) :
  forall prev,
    search re_trailingHyphen prev (q ++ [ch_hyphen])
    = Some (q, [ch_hyphen], [], []).
Proof.
  induction q as [|c q IH]; intros prev.
  - reflexivity.
  - cbn [app search]. rewrite exec_at_trailingHyphen, IH.
    destruct (q ++ [ch_hyphen]) eqn:E; [now destruct q | reflexivity].
Qed.

Lemma search_trailingHyphen_none (s : jstring) :
  (forall r, s <> r ++ [ch_hyphen]) ->
  forall prev, search re_trailingHyphen prev s = None.
Proof.
  induction s as [|c s IH]; intros Hn prev.
  - reflexivity.
  - cbn [search]. rewrite exec_at_trailingHyphen.
    assert (Hs : forall r, s <> r ++ [ch_hyphen]).
    { intros r ->. now apply (Hn (c :: r)). }
    rewrite (IH Hs).
    destruct s as [|d s]; [|reflexivity].
    destruct (ch_hyphen =? c)%N eqn:E; [|reflexivity].
    apply N.eqb_eq in E. subst c. now destruct (Hn []).
Qed.

Lemma strip_trailing_hyphen (p q : jstring) :
  stripped_of_hyphen p q -> re_replace_first re_trailingHyphen p [] = q.
Proof.
  unfold re_replace_first. intros [->|[-> Hn]].
  - rewrite search_trailingHyphen_found. apply app_nil_r.
  - now rewrite search_trailingHyphen_none.
Qed.

Lemma stripped_of_hyphen_exists (p : jstring) : exists q, stripped_of_hyphen p q.
Proof.
  destruct p as [|c p] using rev_ind.
  - exists []. right. split; [reflexivity|]. intros r H. now destruct r.
  - destruct (N.eq_dec c ch_hyphen) as [->|Hc].
    + exists p. now left.
    + exists (p ++ [c]). right. split; [reflexivity|].
      intros r H. apply app_inj_tail in H as [_ H]. contradiction.
Qed.

Lemma drop_while_nil (p : char -> bool) (s : jstring) :
  drop_while p s = [] <-> forallb p s = true.
Proof.
  induction s as [|c s IH]; simpl; [tauto|].
  destruct (p c); simpl; [assumption|]. split; discriminate.
Qed.

Lemma re_test_prefixFormat (q : jstring) :
  re_test re_prefixFormat q = true <-> q <> [] /\ forallb is_ident q = true.
Proof.
  unfold re_prefixFormat, Plus. cbn [seq_of]. rewrite re_test_anchored.
  unfold exec_at, bol. rewrite rmatch_Seq, rmatch_Assert. cbn [m_prev].
  rewrite !rmatch_Seq, rmatch_Char. cbn [m_rest m_caps].
  destruct q as [|c rest].
  - split; [discriminate | intros [H _]; contradiction].
  - cbn [forallb]. destruct (is_ident c); cbn [andb].
    + rewrite rmatch_star_char.
      rewrite <- (take_drop_while is_ident rest) at 1.
      rewrite greedy_blocked.
      * unfold eol. rewrite rmatch_Assert. cbn [m_rest].
        rewrite <- drop_while_nil.
        destruct (drop_while is_ident rest); cbn [hd_error]; split;
          try discriminate; try (intros [_ H]; discriminate); auto.
        intros _. split; [discriminate | reflexivity].
      * intros prev' x rest' _. reflexivity.
      * apply take_while_all.
      * apply drop_while_stops.
    + split; [discriminate | intros [_ H]; discriminate].
Qed.

Lemma prefix_format_check (p : jstring) :
  re_test re_prefixFormat (re_replace_first re_trailingHyphen p []) = true
  <-> valid_prefix_format p.
Proof.
  destruct (stripped_of_hyphen_exists p) as [q Hq].
  rewrite (strip_trailing_hyphen p q Hq), re_test_prefixFormat.
  unfold valid_prefix_format. split.
  - intros H. now exists q.
  - intros (q' & Hq' & H).
    rewrite <- (strip_trailing_hyphen p q Hq), (strip_trailing_hyphen p q' Hq').
    exact H.
Qed.

Lemma not_a_string_iff (v : value) : not_a_string v = true <-> ~ is_string v.
Proof.
  unfold is_string. destruct v; simpl; split; try reflexivity;
    try (intros _ [s H]; discriminate); try discriminate.
  intros H. exfalso. apply H. eauto.
Qed.

Lemma prefix_format_fails_iff (v : value) :
  prefix_format_fails v = true
  <-> exists p, v = VString p /\ ~ valid_prefix_format p.
Proof.
  destruct v as [| | | | |s|]; simpl;
    try (split; [discriminate | intros (p & H & _); discriminate]).
  rewrite negb_true_iff, <- not_true_iff_false, prefix_format_check. split.
  - intros H. now exists s.
  - intros (p & H & Hp). now injection H as ->.
Qed.

Lemma value_in_iff (levels : list jstring) (v : value) :
  value_in levels v = true <-> exists l, v = VString l /\ In l levels.
Proof.
  destruct v as [| | | | |s|]; simpl;
    try (split; [discriminate | intros (p & H & _); discriminate]).
  rewrite array_includes_In. split.
  - intros H. now exists s.
  - intros (l & H & Hl). now injection H as ->.
Qed.

Lemma validateOptions_throws (o : options) :
  (exists message, validateOptions o = Throw message)
  <-> rejected (fun v => truthy v = true) o.
Proof.
  unfold validateOptions, rejected.
  rewrite <- !not_a_string_iff, <- prefix_format_fails_iff, <- value_in_iff.
  destruct (truthy (opt_prefix o)); cbn [andb].
  - destruct (not_a_string (opt_prefix o)).
    + split; [intros _; left; auto | eauto].
    + destruct (prefix_format_fails (opt_prefix o)).
      * split; [intros _; left; auto | eauto].
      * destruct (truthy (opt_sourceDir o) && not_a_string (opt_sourceDir o)) eqn:Ed.
        -- apply andb_true_iff in Ed. split; [intros _; right; left; tauto | eauto].
        -- destruct (truthy (opt_logLevel o)
                     && negb (value_in logLevels (opt_logLevel o))) eqn:El.
           ++ apply andb_true_iff in El as [E1 E2]. apply negb_true_iff in E2.
              split; [|eauto]. intros _. right. right. split; [assumption|].
              congruence.
           ++ split; [intros [m H]; discriminate|].
              apply andb_false_iff in Ed, El.
              intros [[_ [H|H]]|[[H1 H2]|[H1 H2]]]; try discriminate.
              ** destruct Ed; congruence.
              ** apply not_true_iff_false in H2.
                 destruct El as [El|El]; [congruence|].
                 rewrite H2 in El. discriminate.
  - destruct (truthy (opt_sourceDir o) && not_a_string (opt_sourceDir o)) eqn:Ed.
    + apply andb_true_iff in Ed. split; [intros _; right; left; tauto | eauto].
    + destruct (truthy (opt_logLevel o)
                && negb (value_in logLevels (opt_logLevel o))) eqn:El.
      * apply andb_true_iff in El as [E1 E2]. apply negb_true_iff in E2.
        split; [|eauto]. intros _. right. right. split; [assumption|].
        congruence.
      * split; [intros [m H]; discriminate|].
        apply andb_false_iff in Ed, El.
        intros [[H _]|[[H1 H2]|[H1 H2]]]; try discriminate.
        -- destruct Ed; congruence.
        -- apply not_true_iff_false in H2.
           destruct El as [El|El]; [congruence|].
           rewrite H2 in El. discriminate.
Qed.



End Configuration.

(** * Instances *)

Lemma processCssSelectors_occurrence_witness :
  selector_position (str "h1, ")
  /\ str "card" <> []
  /\ forallb is_ident (str "card") = true
  /\ stops is_ident (str " { }") = true
  /\ processCssSelectors tw (str "h1, " ++ ch_dot :: str "card" ++ str " { }")
     = processCssSelectors tw (str "h1, ")
       ++ (if array_includes (ignoreClasses tw) (str "card")
              || startsWith (str "card") (prefix tw)
           then ch_dot :: str "card"
           else ch_dot :: prefix tw ++ str "card")
       ++ replace_all_from re_cssSelector (cssSelector_callback tw)
            (prev_after None (str "card")) (str " { }").
Proof.
  assert (H1 : selector_position (str "h1, ")).
  { right. exists (str "h1,"), ch_space. split; [reflexivity|]. right. now left. }
  assert (H2 : str "card" <> []) by discriminate.
  assert (H3 : forallb is_ident (str "card") = true) by reflexivity.
  assert (H4 : stops is_ident (str " { }") = true) by reflexivity.
  repeat (split; [assumption|]).
  exact (proj1 (processCssSelectors_occurrence tw _ _ _ H1 H2 H3 H4)).
Defined.

Lemma processApplyDirectives_directive_witness :
  includes (str ".btn { " ++ str "@appl") (str "@apply") = false
  /\ directive_end [ch_semi] (str " }")
  /\ processApplyDirectives tw
       (str ".btn { " ++ (str "@apply" ++ str " " ++ str "flex items-center" ++ [ch_semi])
        ++ str " }")
     = squeeze
         (str ".btn { "
          ++ (str "@apply "
              ++ join (str " ")
                   (map (apply_token tw) (class_list (str "flex items-center")))
              ++ str ";")
          ++ replace_all_from re_apply (apply_callback tw)
               (prev_after None (str "flex items-center" ++ [ch_semi])) (str " }")).
Proof.
  assert (H1 : includes (str ".btn { " ++ str "@appl") (str "@apply") = false)
    by (vm_compute; reflexivity).
  assert (H2 : directive_end [ch_semi] (str " }")) by now left.
  split; [exact H1 | split; [exact H2|]].
  apply (proj1 (processApplyDirectives_directive tw (str ".btn { ") (str " ")
                  (str "flex items-center") [ch_semi] (str " }")
                  H1 ltac:(discriminate) eq_refl ltac:(discriminate)
                  eq_refl eq_refl H2)).
Defined.



(** * More on global replacement *)

Section ReplaceSteps.

Variables (r : regex) (f : jstring -> jstring -> jstring).

Lemma replace_all_from_nil_none (prev : option char) :
  exec_at r prev [] = None -> replace_all_from r f prev [] = [].
Proof. intros E. unfold replace_all_from. simpl. now rewrite E. Qed.

Lemma replace_all_from_miss (prev : option char) (c : char) (s : jstring) :
  exec_at r prev (c :: s) = None ->
  replace_all_from r f prev (c :: s) = c :: replace_all_from r f (Some c) s.
Proof. intros E. unfold replace_all_from. cbn [scan]. now rewrite E. Qed.

Lemma replace_all_from_hit (prev : option char) (m rest : jstring)
    (caps : list (nat * jstring)) :
  m <> [] ->
  exec_at r prev (m ++ rest) = Some (length m, caps) ->
  replace_all_from r f prev (m ++ rest)
  = f m (first_capture caps) ++ replace_all_from r f (prev_after prev m) rest.
Proof.
  intros Hm E. unfold replace_all_from. now rewrite (scan_hit r prev m rest caps).
Qed.

End ReplaceSteps.

(** * Selectors: a second pass changes nothing *)

Section SelectorsTwice.

Variable this : TailwindPrefixBot.

Hypothesis prefix_ident : forallb is_ident (prefix this) = true.


Lemma cssSelector_callback_head (run : jstring) :
  exists run',
    cssSelector_callback this (ch_dot :: run) run = ch_dot :: run'
    /\ (run' = run \/ run' = prefix this ++ run)
    /\ cssSelector_callback this (ch_dot :: run') run' = ch_dot :: run'.
Proof.
  unfold cssSelector_callback.
  destruct (array_includes (ignoreClasses this) run) eqn:Ei.
  - exists run. rewrite Ei. auto.
  - destruct (startsWith run (prefix this)) eqn:Es.
    + exists run. rewrite Ei, Es. auto.
    + exists (prefix this ++ run). rewrite startsWith_app.
      split; [reflexivity|]. split; [now right|].
      destruct (array_includes (ignoreClasses this) (prefix this ++ run)); reflexivity.
Qed.

(** The kinds of position of a text: a selector starts here, or not. *)
Lemma cssSelector_cases (prev : option char) (c : char) (rest : jstring) :
  (exec_at re_cssSelector prev (c :: rest) = None
   /\ (selector_lookbehind prev = false \/ c <> ch_dot
       \/ stops is_ident rest = true))
  \/ (exists run tail,
         selector_lookbehind prev = true /\ c = ch_dot /\ rest = run ++ tail
         /\ run <> [] /\ forallb is_ident run = true
         /\ stops is_ident tail = true).
Proof.
  rewrite exec_at_cssSelector.
  destruct (selector_lookbehind prev); [|left; auto].
  destruct (ch_dot =? c)%N eqn:Ec.
  - apply N.eqb_eq in Ec. subst c.
    pose proof (take_drop_while is_ident rest) as Hr.
    pose proof (take_while_all is_ident rest) as Hall.
    pose proof (drop_while_stops is_ident rest) as Hstop.
    destruct (take_while is_ident rest) as [|x run] eqn:Et.
    + left. split; [reflexivity|]. right. right.
      simpl in Hr. now rewrite <- Hr.
    + right. exists (x :: run), (drop_while is_ident rest).
      repeat split; auto. discriminate.
  - left. split; [reflexivity|]. right. left.
    intros ->. now rewrite N.eqb_refl in Ec.
Qed.

Lemma selector_pass_head (prev : option char) (x : char) (t : jstring) :
  exists t', selector_pass this prev (x :: t) = x :: t'.
Proof.
  destruct (cssSelector_cases prev x t)
    as [[E _]|(run & tail & Hp & -> & -> & Hr & Hall & Hstop)].
  - unfold selector_pass. rewrite replace_all_from_miss by assumption. eauto.
  - unfold selector_pass.
    change (ch_dot :: run ++ tail) with ((ch_dot :: run) ++ tail).
    rewrite replace_all_from_hit with (caps := [(1, run)]).
    + cbn [first_capture capture Nat.eqb].
      destruct (cssSelector_callback_head run) as (run' & -> & _).
      eexists. reflexivity.
    + discriminate.
    + now apply exec_at_cssSelector_hit.
Qed.

Lemma selector_pass_stops (prev : option char) (s : jstring) :
  stops is_ident s = true -> stops is_ident (selector_pass this prev s) = true.
Proof.
  destruct s as [|x t]; intros H.
  - unfold selector_pass, replace_all_from. simpl.
    rewrite exec_at_cssSelector. now destruct (selector_lookbehind prev).
  - destruct (selector_pass_head prev x t) as [t' ->]. exact H.
Qed.

Lemma prev_after_nonempty (p q : option char) (w : jstring) :
  w <> [] -> prev_after p w = prev_after q w.
Proof.
  destruct w as [|c w] using rev_ind; [contradiction|].
  intros _. now rewrite !prev_after_last.
Qed.

Lemma selector_pass_twice (n : nat) :
  forall s prev, length s <= n -> selector_pass this prev (selector_pass this prev s) = selector_pass this prev s.
Proof.
  induction n as [|n IH]; intros s prev Hn.
  - destruct s; [|simpl in Hn; lia].
    assert (E : selector_pass this prev [] = []).
    { unfold selector_pass. apply replace_all_from_nil_none.
      rewrite exec_at_cssSelector. now destruct (selector_lookbehind prev). }
    now rewrite !E.
  - destruct s as [|c rest].
    { assert (E : selector_pass this prev [] = []).
      { unfold selector_pass. apply replace_all_from_nil_none.
        rewrite exec_at_cssSelector. now destruct (selector_lookbehind prev). }
      now rewrite !E. }
    destruct (cssSelector_cases prev c rest)
      as [[E Hwhy]|(run & tail & Hp & -> & -> & Hr & Hall & Hstop)].
    + unfold selector_pass at 2 3. rewrite replace_all_from_miss by assumption. fold (selector_pass this).
      assert (E2 : exec_at re_cssSelector prev (c :: selector_pass this (Some c) rest) = None).
      { rewrite exec_at_cssSelector.
        destruct Hwhy as [H|[H|H]].
        - now rewrite H.
        - destruct (selector_lookbehind prev); [|reflexivity].
          destruct (ch_dot =? c)%N eqn:Ec; [|reflexivity].
          apply N.eqb_eq in Ec. now subst c.
        - destruct (selector_lookbehind prev); [|reflexivity].
          destruct (ch_dot =? c)%N; [|reflexivity].
          pose proof (selector_pass_stops (Some c) rest H) as Hs.
          destruct (selector_pass this (Some c) rest) as [|y t]; [reflexivity|].
          simpl in Hs. apply negb_true_iff in Hs. simpl. now rewrite Hs. }
      unfold selector_pass at 1. rewrite replace_all_from_miss by assumption. fold (selector_pass this).
      f_equal. apply IH. simpl in Hn. lia.
    + unfold selector_pass at 2 3.
      change (ch_dot :: run ++ tail) with ((ch_dot :: run) ++ tail).
      rewrite replace_all_from_hit with (caps := [(1, run)]);
        [|discriminate|now apply exec_at_cssSelector_hit].
      fold (selector_pass this). cbn [first_capture capture Nat.eqb].
      destruct (cssSelector_callback_head run) as (run' & -> & Hrun' & Hcb).
      assert (Hr' : run' <> []).
      { destruct Hrun' as [->| ->]; [assumption|].
        intros H. apply app_eq_nil in H as [_ H]. contradiction. }
      assert (Hall' : forallb is_ident run' = true).
      { destruct Hrun' as [->| ->]; [assumption|].
        rewrite forallb_app, prefix_ident. assumption. }
      assert (Hlast : prev_after prev (ch_dot :: run') = prev_after prev (ch_dot :: run)).
      { rewrite !prev_after_cons. destruct Hrun' as [->| ->]; [reflexivity|].
        unfold prev_after. rewrite fold_left_app.
        now apply prev_after_nonempty. }
      unfold selector_pass at 1.
      rewrite replace_all_from_hit with (caps := [(1, run')]).
      * fold (selector_pass this). cbn [first_capture capture Nat.eqb]. rewrite Hcb, Hlast.
        f_equal. apply IH.
        simpl in Hn. rewrite length_app in Hn. lia.
      * discriminate.
      * apply exec_at_cssSelector_hit; try assumption.
        now apply selector_pass_stops.
Qed.

(** Running the selector pass on its own output changes nothing, for a
    prefix made of [[A-Za-z0-9_-]]. *)
Theorem processCssSelectors_twice (content : jstring) :
  processCssSelectors this (processCssSelectors this content)
  = processCssSelectors this content.
Proof. apply (selector_pass_twice (length content) content None). lia. Qed.

End SelectorsTwice.

(** * Semicolons after the apply pass *)

Lemma squeeze_stops (s : jstring) :
  stops (N.eqb ch_semi) s = true -> stops (N.eqb ch_semi) (squeeze s) = true.
Proof.
  destruct s as [|c s]; [reflexivity|]. cbn [stops squeeze]. intros H.
  apply negb_true_iff in H. rewrite H. cbn [andb stops]. now rewrite H.
Qed.

Lemma squeeze_no_double (s : jstring) :
  includes (squeeze s) (str ";;") = false.
Proof.
  induction s as [|c s IH]; [reflexivity|]. cbn [squeeze].
  destruct ((ch_semi =? c)%N && negb (stops (N.eqb ch_semi) s)) eqn:E;
    [assumption|].
  cbn [includes]. rewrite IH, orb_false_r.
  change (str ";;") with [ch_semi; ch_semi]. cbn [startsWith].
  rewrite (N.eqb_sym c ch_semi).
  destruct (ch_semi =? c)%N; [|reflexivity]. cbn [andb] in *.
  apply negb_false_iff in E. apply squeeze_stops in E.
  destruct (squeeze s) as [|d t]; [reflexivity|].
  cbn [stops] in E. apply negb_true_iff in E.
  rewrite (N.eqb_sym d ch_semi), E. reflexivity.
Qed.

(** The result of [processApplyDirectives] never has two semicolons in a
    row. *)
Theorem processApplyDirectives_no_double_semicolon
    (this : TailwindPrefixBot) (content : jstring) :
  includes (processApplyDirectives this content) (str ";;") = false.
Proof.
  unfold processApplyDirectives. rewrite collapse_semicolons_squeeze.
  apply squeeze_no_double.
Qed.

(** * More on the rewriter *)

Section RewriterMore.

Variable this : TailwindPrefixBot.

Lemma prefix_last_segment_base (b : jstring) :
  ~ In ch_colon b ->
  (exists b', b = ch_bang :: b'
              /\ prefix_last_segment this b = ch_bang :: prefix this ++ b')
  \/ ((forall b', b <> ch_bang :: b')
      /\ prefix_last_segment this b = prefix this ++ b).
Proof.
  intros Hb. unfold prefix_last_segment.
  rewrite (lastIndexOf_colon_absent b Hb). cbn [Z.eqb].
  destruct b as [|x b].
  - right. split; [discriminate | reflexivity].
  - cbn [str list_ascii_of_string map startsWith].
    destruct (x =? N_of_ascii "!")%N eqn:Ex.
    + apply N.eqb_eq in Ex. subst x. left. exists b.
      split; [reflexivity|]. cbn [andb]. now rewrite substring_tail.
    + right. split; [|reflexivity]. intros b' H. injection H as -> _.
      now rewrite N.eqb_refl in Ex.
Qed.

(** The rewriter only inserts: its result is the token itself or the token
    with the prefix put in at one place; no code unit of the token is
    removed, changed or moved. *)
Theorem addPrefixToClass_inserts (token : jstring) :
  addPrefixToClass this token = token
  \/ exists a b, token = a ++ b
                 /\ addPrefixToClass this token = a ++ prefix this ++ b.
Proof.
  rewrite addPrefixToClass_closed.
  destruct (includes token (prefix this)); [now left|].
  destruct (isNotTailwindClass this token); [now left|]. right.
  destruct (chain_split token) as (m & b & -> & Hm & Hb).
  rewrite prefix_last_segment_chain by assumption.
  destruct (prefix_last_segment_base b Hb) as [(b' & -> & ->)|[_ ->]].
  - exists (m ++ [ch_bang]), b'. now rewrite <- !app_assoc.
  - now exists m, b.
Qed.

(** A class of the ignore list is left alone under any chain of modifiers,
    with or without an exclamation mark before it, provided the entry has
    no colon and does not itself start with an exclamation mark. *)
Theorem addPrefixToClass_ignored (m c : jstring) :
  In c (ignoreClasses this) ->
  ~ In ch_colon c -> (forall r, c <> ch_bang :: r) ->
  ModifierChain m ->
  addPrefixToClass this (m ++ c) = m ++ c
  /\ addPrefixToClass this (m ++ ch_bang :: c) = m ++ ch_bang :: c.
Proof.
  intros Hin Hc Hbang Hm. apply ModifierChain_ends in Hm.
  assert (Hb2 : ~ In ch_colon (ch_bang :: c)).
  { intros [H|H]; [discriminate | contradiction]. }
  split; rewrite addPrefixToClass_closed.
  - destruct (includes _ _); [reflexivity|].
    rewrite (isNotTailwindClass_tests this (m ++ c) c c).
    + apply array_includes_In in Hin. now rewrite Hin.
    + now apply base_class_of_chain.
    + right. auto.
  - destruct (includes _ _); [reflexivity|].
    rewrite (isNotTailwindClass_tests this (m ++ ch_bang :: c) (ch_bang :: c) c).
    + apply array_includes_In in Hin. now rewrite Hin.
    + now apply base_class_of_chain.
    + now left.
Qed.

End RewriterMore.

(** * What the constructor guarantees *)

Lemma valid_prefix_format_ident (p : jstring) :
  valid_prefix_format p -> p <> [] /\ forallb is_ident p = true.
Proof.
  intros (q & [->|[-> _]] & Hq & Hall).
  - split; [now destruct q|]. rewrite forallb_app, Hall. reflexivity.
  - now split.
Qed.

(** A bot the constructor returns has a non-empty prefix made of
    [[A-Za-z0-9_-]], which is the given prefix when that is truthy and
    [tw-] otherwise, and a log level among the five levels. *)
Theorem constructor_invariant (o : options) (bot : TailwindPrefixBot) :
  constructor o = Return bot ->
  prefix bot <> [] /\ forallb is_ident (prefix bot) = true
  /\ (truthy (opt_prefix o) = true -> opt_prefix o = VString (prefix bot))
  /\ (truthy (opt_prefix o) = false -> prefix bot = str "tw-")
  /\ In (logLevel bot) logLevels.
Proof.
  unfold constructor. intros H.
  assert (Hv : ~ exists message, validateOptions o = Throw message).
  { destruct (validateOptions o); [|discriminate]. intros [m Hm]. discriminate. }
  rewrite validateOptions_throws in Hv. unfold rejected in Hv.
  destruct (validateOptions o) as [[]|]; [|discriminate].
  injection H as <-. cbn [prefix logLevel].
  assert (Hp : truthy (opt_prefix o) = true ->
               exists p, opt_prefix o = VString p /\ valid_prefix_format p).
  { intros Ht. destruct (opt_prefix o) as [| | | | |p|] eqn:Ep;
      try (exfalso; apply Hv; left; split; [exact Ht|]; left;
           intros [s Hs]; discriminate).
    exists p. split; [reflexivity|].
    destruct (re_test re_prefixFormat (re_replace_first re_trailingHyphen p []))
      eqn:Et.
    - now apply prefix_format_check.
    - exfalso. apply Hv. left. split; [exact Ht|]. right. exists p.
      split; [reflexivity|]. rewrite <- prefix_format_check, Et. discriminate. }
  assert (Hl : truthy (opt_logLevel o) = true ->
               exists l, opt_logLevel o = VString l /\ In l logLevels).
  { intros Ht.
    destruct (value_in logLevels (opt_logLevel o)) eqn:Ev.
    - now apply value_in_iff.
    - exfalso. apply Hv. right. right. split; [exact Ht|].
      rewrite <- value_in_iff, Ev. discriminate. }
  destruct (truthy (opt_prefix o)) eqn:Tp.
  - destruct (Hp eq_refl) as (p & Ep & Hvp).
    apply valid_prefix_format_ident in Hvp as [Hne Hall].
    assert (Es : string_or (opt_prefix o) (str "tw-") = p).
    { unfold string_or. rewrite Ep in *. now rewrite Tp. }
    rewrite Es. repeat split; auto; try discriminate.
    destruct (truthy (opt_logLevel o)) eqn:Tl.
    + destruct (Hl eq_refl) as (l & El & Hin).
      unfold string_or. rewrite El in *. now rewrite Tl.
    + assert (El : string_or (opt_logLevel o) (str "info") = str "info").
      { unfold string_or. destruct (opt_logLevel o); try reflexivity.
        now rewrite Tl. }
      rewrite El. simpl. tauto.
  - assert (Es : string_or (opt_prefix o) (str "tw-") = str "tw-").
    { unfold string_or. destruct (opt_prefix o); try reflexivity. now rewrite Tp. }
    rewrite Es. repeat split; auto; try discriminate.
    destruct (truthy (opt_logLevel o)) eqn:Tl.
    + destruct (Hl eq_refl) as (l & El & Hin).
      unfold string_or. rewrite El in *. now rewrite Tl.
    + assert (El : string_or (opt_logLevel o) (str "info") = str "info").
      { unfold string_or. destruct (opt_logLevel o); try reflexivity.
        now rewrite Tl. }
      rewrite El. simpl. tauto.
Qed.

(** * Logging *)

Lemma levels_get_level (l : jstring) :
  In l logLevels -> exists n, levels_get l = Rank n /\ n <= 4.
Proof.
  intros [<-|[<-|[<-|[<-|[<-|[]]]]]]; eexists; (split; [reflexivity | lia]).
Qed.

(** For a bot with one of the five log levels: an error line is always
    written, also at level [silent]; a debug line is written at level
    [debug] only; and a bot at level [silent] writes exactly what a bot at
    level [info] writes. *)
Theorem log_never_silent (this : TailwindPrefixBot)
    (timestamp message : jstring) :
  In (logLevel this) logLevels ->
  log this timestamp (str "error") message
  = Some (str "[" ++ timestamp ++ str "] [ERROR] " ++ message)
  /\ (log this timestamp (str "debug") message <> None
      <-> logLevel this = str "debug")
  /\ (logLevel this = str "silent" ->
      forall other level,
        logLevel other = str "info" ->
        log this timestamp level message = log other timestamp level message).
Proof.
  intros Hin. unfold log. split; [|split].
  - destruct Hin as [<-|[<-|[<-|[<-|[<-|[]]]]]]; reflexivity.
  - destruct Hin as [<-|[<-|[<-|[<-|[<-|[]]]]]];
      (split; [intros H; try reflexivity; exfalso; now apply H
              | intros H; try discriminate H; cbv; discriminate ]).
  - intros Hs other level Ho. rewrite Hs, Ho. reflexivity.
Qed.

(** * Dispatch on the file extension *)

Section Dispatch.

Variable this : TailwindPrefixBot.

Lemma processHtmlClasses_bot (content : jstring) :
  exists n,
    snd (processHtmlClasses this content)
    = Bot (prefix this) (ignoreClasses this) (logLevel this)
        (Stats (filesProcessed (botStats this)) (filesChanged (botStats this))
           (classesChanged (botStats this) + n) (errors (botStats this))).
Proof. unfold processHtmlClasses. eexists. reflexivity. Qed.

(** [processContent] keeps the configuration of the bot and all counters
    but [classesChanged], which never decreases; for a stylesheet the bot
    is returned as it was, so the classes rewritten in stylesheets are
    never counted; and an extension that is not handled leaves content and
    bot alone. *)
Theorem processContent_bot (content fileExt : jstring) :
  let bot := snd (processContent this content fileExt) in
  prefix bot = prefix this
  /\ ignoreClasses bot = ignoreClasses this
  /\ logLevel bot = logLevel this
  /\ filesProcessed (botStats bot) = filesProcessed (botStats this)
  /\ filesChanged (botStats bot) = filesChanged (botStats this)
  /\ errors (botStats bot) = errors (botStats this)
  /\ classesChanged (botStats this) <= classesChanged (botStats bot)
  /\ (fileExt = str ".css" -> bot = this)
  /\ (~ In fileExt [str ".html"; str ".php"; str ".vue"; str ".css";
                    str ".js"; str ".jsx"; str ".ts"; str ".tsx"] ->
      processContent this content fileExt = (content, this)).
Proof.
  cbv zeta. unfold processContent.
  destruct (array_includes [str ".html"; str ".php"; str ".vue"] fileExt) eqn:E1.
  - destruct (processHtmlClasses_bot content) as [n ->]. cbn.
    repeat split; try lia.
    + intros ->. discriminate.
    + intros H. exfalso. apply H. apply array_includes_In in E1.
      simpl in *. tauto.
  - destruct (jstring_eqb fileExt (str ".css")) eqn:E2.
    + cbn [snd]. repeat split; try lia.
      intros H. exfalso. apply H. apply jstring_eqb_eq in E2. subst.
      simpl. tauto.
    + destruct (array_includes [str ".js"; str ".jsx"; str ".ts"; str ".tsx"]
                  fileExt) eqn:E3.
      * destruct (processHtmlClasses_bot (processJsClasses this content)) as [n ->].
        cbn. repeat split; try lia.
        -- intros ->. discriminate.
        -- intros H. exfalso. apply H. apply array_includes_In in E3.
           simpl in *. tauto.
      * cbn [snd]. repeat split; try lia.
Qed.

End Dispatch.

(** * The configuration file *)

Section ConfigFile.

Variable this : TailwindPrefixBot.

Lemma split_at_first_spec (s pat pre post : jstring) :
  split_at_first s pat = Some (pre, post) -> s = pre ++ pat ++ post.
Proof.
  revert pre. induction s as [|c s IH]; intros pre; cbn [split_at_first].
  - destruct (startsWith [] pat) eqn:E; [|discriminate].
    intros H. injection H as <- <-.
    apply startsWith_iff in E as [r E]. rewrite E at 1.
    destruct pat; [|discriminate]. destruct r; [reflexivity | discriminate].
  - destruct (startsWith (c :: s) pat) eqn:E.
    + intros H. injection H as <- <-.
      apply startsWith_iff in E as [r E]. rewrite E.
      rewrite skipn_app, skipn_all, Nat.sub_diag. reflexivity.
    + destruct (split_at_first s pat) as [[p q]|]; [|discriminate].
      intros H. injection H as <- <-. cbn [app]. f_equal. now apply IH.
Qed.

Lemma split_at_first_none (s pat : jstring) :
  includes s pat = false -> split_at_first s pat = None.
Proof.
  induction s as [|c s IH]; cbn [includes split_at_first]; intros H;
    apply orb_false_iff in H as [H1 H2]; rewrite H1; [reflexivity|].
  now rewrite IH.
Qed.

Lemma split_at_first_start (s pat : jstring) :
  startsWith s pat = true ->
  split_at_first s pat = Some ([], skipn (length pat) s).
Proof. intros H. destruct s; cbn [split_at_first]; now rewrite H. Qed.

Lemma firstn_removelast (l : jstring) (k : nat) :
  k < length l -> firstn k (removelast l) = firstn k l.
Proof.
  revert k. induction l as [|x l IH]; intros k Hk; [simpl in Hk; lia|].
  destruct l as [|y l].
  - simpl in Hk. assert (k = 0) by lia. now subst.
  - destruct k as [|k]; [reflexivity|].
    cbn [removelast firstn]. f_equal. apply IH. simpl in *. lia.
Qed.

(** The first occurrence of [pat] in [pre ++ pat ++ post] is the one shown
    when no occurrence starts inside [pre]. *)
Lemma split_at_first_here (pat post : jstring) :
  pat <> [] ->
  forall pre,
    includes (pre ++ removelast pat) pat = false ->
    split_at_first (pre ++ pat ++ post) pat = Some (pre, post).
Proof.
  intros Hpat. induction pre as [|c pre IH]; intros Hinc.
  - cbn [app]. rewrite split_at_first_start by apply startsWith_app.
    now rewrite skipn_app, skipn_all, Nat.sub_diag.
  - cbn [app includes] in Hinc. apply orb_false_iff in Hinc as [Hs Hinc].
    cbn [app split_at_first]. rewrite (IH Hinc).
    replace (startsWith (c :: pre ++ pat ++ post) pat) with false; [reflexivity|].
    symmetry. rewrite <- Hs.
    rewrite (startsWith_firstn pat (c :: pre ++ pat ++ post)).
    rewrite (startsWith_firstn pat (c :: pre ++ removelast pat)).
    f_equal.
    change (c :: pre ++ pat ++ post) with ((c :: pre) ++ pat ++ post).
    change (c :: pre ++ removelast pat) with ((c :: pre) ++ removelast pat).
    rewrite !firstn_app. f_equal.
    assert (Hl : length pat <> 0) by (destruct pat; [contradiction | discriminate]).
    rewrite firstn_removelast by (simpl; lia).
    replace (length pat - length (c :: pre) - length pat) with 0 by lia.
    cbn [firstn]. now rewrite app_nil_r.
Qed.

Lemma get_substitution_literal (matched pre post lit rest : jstring) :
  ~ In ch_dollar lit ->
  get_substitution matched pre post (lit ++ rest)
  = lit ++ get_substitution matched pre post rest.
Proof.
  induction lit as [|c lit IH]; intros H; [reflexivity|].
  cbn [app get_substitution].
  destruct (c =? ch_dollar)%N eqn:E.
  - apply N.eqb_eq in E. subst c. exfalso. apply H. now left.
  - f_equal. apply IH. intros F. apply H. now right.
Qed.

Lemma get_substitution_plain (matched pre post repl : jstring) :
  ~ In ch_dollar repl -> get_substitution matched pre post repl = repl.
Proof.
  intros H. rewrite <- (app_nil_r repl) at 1.
  rewrite get_substitution_literal by assumption. apply app_nil_r.
Qed.

Lemma written_config_has_prefix (c pre post : jstring) :
  split_at_first c (str "module.exports = {") = Some (pre, post) ->
  includes (string_replace c (str "module.exports = {") (config_replacement this))
    (str "prefix:") = true.
Proof.
  intros E. unfold string_replace. rewrite E. unfold config_replacement.
  rewrite !app_assoc.
  rewrite <- (app_assoc _ (prefix this)).
  rewrite get_substitution_literal
    by (cbv; intuition discriminate).
  apply includes_iff.
  exists (pre ++ str "module.exports = {" ++ [10%N] ++ str "  ").
  eexists. rewrite <- !app_assoc. reflexivity.
Qed.

(** A second call of [updateTailwindConfig] leaves the file as the first
    call left it. With a prefix free of dollar signs, a file without
    [prefix:] gets the prefix line right after the first
    [module.exports = {]; a file that has neither is written back
    unchanged. *)
Theorem updateTailwindConfig_once (configFile : option jstring) :
  config_after this (config_after this configFile) = config_after this configFile
  /\ (forall pre post,
         configFile = Some (pre ++ str "module.exports = {" ++ post) ->
         includes (pre ++ str "module.exports = {" ++ post) (str "prefix:") = false ->
         includes (pre ++ str "module.exports = ") (str "module.exports = {") = false ->
         ~ In ch_dollar (prefix this) ->
         updateTailwindConfig this configFile
         = Some (pre ++ config_replacement this ++ post))
  /\ (forall c,
         configFile = Some c ->
         includes c (str "prefix:") = false ->
         includes c (str "module.exports = {") = false ->
         updateTailwindConfig this configFile = Some c).
Proof.
  split; [|split].
  - destruct configFile as [c|]; [|reflexivity].
    unfold config_after at 2. unfold updateTailwindConfig.
    destruct (includes c (str "prefix:")) eqn:Ep; cbn [negb].
    + unfold config_after, updateTailwindConfig. now rewrite Ep.
    + destruct (split_at_first c (str "module.exports = {")) as [[pre post]|] eqn:Es.
      * unfold config_after, updateTailwindConfig.
        rewrite (written_config_has_prefix c pre post Es), Ep. reflexivity.
      * unfold string_replace. rewrite Es.
        unfold config_after, updateTailwindConfig. rewrite Ep. cbn [negb].
        unfold string_replace. now rewrite Es.
  - intros pre post -> Hp Hfirst Hd. unfold updateTailwindConfig.
    rewrite Hp. cbn [negb]. unfold string_replace.
    rewrite (split_at_first_here (str "module.exports = {") post
               ltac:(discriminate) pre Hfirst).
    rewrite get_substitution_plain; [reflexivity|].
    unfold config_replacement. intros H.
    repeat (apply in_app_or in H as [H|H]);
      try contradiction; revert H; cbv; intuition discriminate.
  - intros c -> Hp Hm. unfold updateTailwindConfig. rewrite Hp. cbn [negb].
    unfold string_replace. now rewrite split_at_first_none.
Qed.

End ConfigFile.

(** * Backup names *)

Section BackupNames.

Lemma exec_at_Char (p : char -> bool) (prev : option char) (s : jstring) :
  exec_at (Char p) prev s =
  match s with
  | c :: _ => if p c then Some (1, []) else None
  | [] => None
  end.
Proof.
  unfold exec_at. rewrite rmatch_Char. cbn [m_rest m_caps].
  destruct s as [|c s]; [reflexivity|]. destruct (p c); [|reflexivity].
  cbn [m_rest length]. f_equal. f_equal. lia.
Qed.

(** Replacing every code unit of a class by one code unit is a map. *)
Lemma replace_all_from_Char (p : char -> bool) (x : char) (s : jstring) :
  forall prev,
    replace_all_from (Char p) (fun _ _ => [x]) prev s
    = map (fun c => if p c then x else c) s.
Proof.
  induction s as [|c s IH]; intros prev.
  - apply replace_all_from_nil_none. apply exec_at_Char.
  - cbn [map]. destruct (p c) eqn:E.
    + change (c :: s) with ([c] ++ s).
      rewrite replace_all_from_hit with (caps := []).
      * cbn [app]. f_equal. apply IH.
      * discriminate.
      * rewrite exec_at_Char. cbn [app]. now rewrite E.
    + rewrite replace_all_from_miss.
      * f_equal. apply IH.
      * rewrite exec_at_Char. now rewrite E.
Qed.

Lemma replace_all_Char (p : char -> bool) (x : char) (s : jstring) :
  replace_all (Char p) (fun _ _ => [x]) s
  = map (fun c => if p c then x else c) s.
Proof. apply (replace_all_from_Char p x s None). Qed.

Lemma split_char_nonempty (sep : char) (s : jstring) : split_char sep s <> [].
Proof.
  induction s as [|c s IH]; [discriminate|]. cbn [split_char].
  destruct (split_char sep s); [discriminate|].
  destruct (c =? sep)%N; discriminate.
Qed.

Lemma join_split_char (sep : char) (s : jstring) :
  join [sep] (split_char sep s) = s.
Proof.
  induction s as [|c s IH]; [reflexivity|]. cbn [split_char].
  pose proof (split_char_nonempty sep s) as Hne.
  destruct (split_char sep s) as [|piece pieces]; [contradiction|].
  destruct (c =? sep)%N eqn:E.
  - apply N.eqb_eq in E. subst c.
    change (join [sep] ([] :: piece :: pieces))
      with (sep :: join [sep] (piece :: pieces)).
    now rewrite IH.
  - destruct pieces as [|q pieces].
    + cbn [join] in *. now rewrite IH.
    + change (join [sep] ((c :: piece) :: q :: pieces))
        with (c :: join [sep] (piece :: q :: pieces)).
      now rewrite IH.
Qed.

Lemma split_char_app (sep : char) (t : jstring) :
  forall a, split_char sep (a ++ sep :: t) = split_char sep a ++ split_char sep t.
Proof.
  induction a as [|x a IH].
  - cbn [app split_char]. pose proof (split_char_nonempty sep t) as Hne.
    destruct (split_char sep t); [contradiction|]. now rewrite N.eqb_refl.
  - cbn [app split_char]. rewrite IH.
    pose proof (split_char_nonempty sep a) as Hne.
    destruct (split_char sep a) as [|p ps]; [contradiction|].
    cbn [app]. destruct (x =? sep)%N; reflexivity.
Qed.

Lemma split_char_absent (sep : char) (t : jstring) :
  ~ In sep t -> split_char sep t = [t].
Proof.
  induction t as [|c t IH]; intros H; [reflexivity|].
  cbn [split_char]. rewrite IH by (intros F; apply H; now right).
  destruct (c =? sep)%N eqn:E; [|reflexivity].
  apply N.eqb_eq in E. subst c. exfalso. apply H. now left.
Qed.

Lemma map_fixed (f : char -> char) (l : jstring) :
  map f l = l -> forall x, In x l -> f x = x.
Proof.
  induction l as [|c l IH]; intros H x Hx; [contradiction|].
  injection H as Hc Hl. destruct Hx as [<-|Hx]; auto.
Qed.

(** The path that [restoreFromBackup] computes for a backup made by
    [createBackup] is the relative path of the file with every slash,
    backslash and underscore turned into the path separator. On a system
    whose separator is the slash it is the path of the file when that has
    neither underscore nor backslash, and another path as soon as it has an
    underscore. *)
Theorem restore_path_of_backup (sep : char) (relativePath isoString : jstring) :
  ~ In ch_underscore isoString ->
  originalRelativePath sep (backupName relativePath isoString)
  = map (fun c => if (c =? ch_slash)%N || (c =? ch_backslash)%N
                     || (c =? ch_underscore)%N
                  then sep else c) relativePath
  /\ (~ In ch_underscore relativePath -> ~ In ch_backslash relativePath ->
      originalRelativePath ch_slash (backupName relativePath isoString)
      = relativePath)
  /\ (In ch_underscore relativePath ->
      originalRelativePath ch_slash (backupName relativePath isoString)
      <> relativePath).
Proof.
  intros Hiso.
  assert (E : forall s,
             originalRelativePath s (backupName relativePath isoString)
             = map (fun c => if (c =? ch_slash)%N || (c =? ch_backslash)%N
                                || (c =? ch_underscore)%N
                             then s else c) relativePath).
  { intros s. unfold originalRelativePath, backupName. cbv zeta.
    unfold re_pathSeparator, re_colonOrDot, re_underscore, lit_char.
    change (str "-") with [ch_hyphen]. change (str "_") with [ch_underscore].
    rewrite !replace_all_Char. cbn [app].
    rewrite split_char_app.
    rewrite (split_char_absent _ (map _ isoString)).
    - rewrite removelast_last, join_split_char, map_map.
      apply map_ext. intros c.
      destruct ((c =? ch_slash)%N || (c =? ch_backslash)%N) eqn:Ec; cbn [orb].
      + reflexivity.
      + rewrite (N.eqb_sym ch_underscore c). reflexivity.
    - intros H. apply in_map_iff in H as (c & Hc & Hin).
      destruct ((c =? ch_colon)%N || (c =? ch_dot)%N); [discriminate|].
      subst c. contradiction. }
  split; [apply E | split].
  - intros Hu Hb. rewrite E. rewrite <- (map_id relativePath) at 2.
    apply map_ext_in. intros c Hc.
    destruct (c =? ch_slash)%N eqn:E1; [now apply N.eqb_eq in E1|].
    destruct (c =? ch_backslash)%N eqn:E2;
      [apply N.eqb_eq in E2; subst c; contradiction|].
    destruct (c =? ch_underscore)%N eqn:E3;
      [apply N.eqb_eq in E3; subst c; contradiction|].
    reflexivity.
  - intros Hu H. rewrite E in H.
    pose proof (map_fixed _ _ H ch_underscore Hu) as F. discriminate F.
Qed.

End BackupNames.

(** * The command line *)

Section CommandLine.

Lemma jstring_eqb_neq (a b : jstring) : a <> b -> jstring_eqb a b = false.
Proof.
  intros H. destruct (jstring_eqb a b) eqn:E; [|reflexivity].
  apply jstring_eqb_eq in E. contradiction.
Qed.

Lemma parse_args_keeps_prefix_bounded (n : nat) :
  forall args o,
    length args <= n ->
    ~ In (str "--prefix") args -> dir_ok o ->
    match parse_args args o with
    | ParsedTest o' | Parsed o' => cli_prefix o' = cli_prefix o /\ dir_ok o'
    | ParsedHelp => True
    end.
Proof.
  induction n as [|n IH]; intros args o Hl Hn Hd.
  { destruct args; [now split | simpl in Hl; lia]. }
  destruct args as [|a rest]; [now split|].
  cbn [parse_args].
  assert (Ha : a <> str "--prefix") by (intros ->; apply Hn; now left).
  assert (Hr : ~ In (str "--prefix") rest) by (intros F; apply Hn; now right).
  simpl in Hl.
  rewrite (jstring_eqb_neq _ _ Ha).
  destruct (jstring_eqb a (str "--dir")).
  { destruct rest as [|v rest'].
    - split; [reflexivity | now left].
    - apply (IH rest'
               (CliOptions (cli_prefix o) (VString v) (cli_backup o)
                  (cli_cleanBackupsFlag o))).
      + simpl in Hl. lia.
      + intros F. apply Hr. now right.
      + right. now exists v. }
  destruct (jstring_eqb a (str "--no-backup")).
  { apply (IH rest
             (CliOptions (cli_prefix o) (cli_sourceDir o) false
                (cli_cleanBackupsFlag o))); [lia|assumption..]. }
  destruct (jstring_eqb a (str "--clean-backups")).
  { apply (IH rest
             (CliOptions (cli_prefix o) (cli_sourceDir o) (cli_backup o) true));
      [lia|assumption..]. }
  destruct (jstring_eqb a (str "--test")); [now split|].
  destruct (jstring_eqb a (str "--help")); [exact I|].
  apply (IH rest o); [lia|assumption..].
Qed.

Lemma parse_args_keeps_prefix (args : list jstring) (o : cli_options) :
  ~ In (str "--prefix") args -> dir_ok o ->
  match parse_args args o with
  | ParsedTest o' | Parsed o' => cli_prefix o' = cli_prefix o /\ dir_ok o'
  | ParsedHelp => True
  end.
Proof. apply (parse_args_keeps_prefix_bounded (length args)). lia. Qed.

Lemma constructor_two (dir : value) :
  dir = VUndefined \/ (exists d, dir = VString d) ->
  exists bot,
    constructor (Options (VString (str "two-")) dir VUndefined None) = Return bot
    /\ prefix bot = str "two-".
Proof.
  intros [->|[d ->]].
  - eexists. split; reflexivity.
  - eexists. unfold constructor, validateOptions.
    cbn [opt_prefix opt_sourceDir opt_logLevel not_a_string andb truthy].
    replace (negb (length (str "two-") =? 0)
             && prefix_format_fails (VString (str "two-")))
      with false by (vm_compute; reflexivity).
    rewrite !andb_false_r. split; reflexivity.
Qed.

Lemma constructor_undefined (dir : value) :
  dir = VUndefined \/ (exists d, dir = VString d) ->
  exists bot,
    constructor (Options VUndefined dir VUndefined None) = Return bot
    /\ prefix bot = str "tw-".
Proof.
  intros [->|[d ->]].
  - eexists. split; reflexivity.
  - eexists. unfold constructor, validateOptions.
    cbn [opt_prefix opt_sourceDir opt_logLevel not_a_string andb truthy].
    rewrite !andb_false_r. split; reflexivity.
Qed.

(** Without the argument [--prefix] the program never fails on its
    options, and every bot it builds has the prefix [two-]. *)
Theorem main_default_prefix (args : list jstring) :
  ~ In (str "--prefix") args ->
  main args = ShowHelp
  \/ exists bot,
       (main args = TestLogic bot \/ main args = CleanBackups bot
        \/ main args = RunBot bot)
       /\ prefix bot = str "two-".
Proof.
  intros Hn. unfold main.
  pose proof (parse_args_keeps_prefix args cli_defaults Hn
                ltac:(right; now exists (str "./"))) as H.
  destruct (parse_args args cli_defaults) as [o| |o]; [|now left|].
  - destruct H as [Hp Hd]. right.
    destruct o as [p d b cl]. cbn [cli_prefix cli_sourceDir] in *. subst p.
    destruct (constructor_two d Hd) as (bot & Hc & Hb).
    unfold constructor_options. cbn [cli_prefix cli_sourceDir].
    change (cli_prefix cli_defaults) with (VString (str "two-")).
    rewrite Hc. eauto.
  - destruct H as [Hp Hd]. right.
    destruct o as [p d b cl]. cbn [cli_prefix cli_sourceDir] in *. subst p.
    destruct (constructor_two d Hd) as (bot & Hc & Hb).
    unfold constructor_options. cbn [cli_prefix cli_sourceDir cli_cleanBackupsFlag].
    change (cli_prefix cli_defaults) with (VString (str "two-")).
    rewrite Hc. exists bot. destruct cl; auto.
Qed.

Lemma parse_args_complete (pre : list jstring) :
  complete_args pre ->
  forall o, dir_ok o ->
    exists o', dir_ok o'
               /\ forall tail, parse_args (pre ++ tail) o = parse_args tail o'.
Proof.
  induction 1 as [|v args _ IH|v args _ IH|a args H1 H2 H3 H4 _ IH]; intros o Hd.
  - exists o. auto.
  - destruct (IH (CliOptions (VString v) (cli_sourceDir o) (cli_backup o)
                    (cli_cleanBackupsFlag o)) Hd) as (o' & Hd' & Ho').
    exists o'. split; [assumption|]. intros tail. rewrite <- Ho'. reflexivity.
  - destruct (IH (CliOptions (cli_prefix o) (VString v) (cli_backup o)
                    (cli_cleanBackupsFlag o))
                ltac:(right; now exists v)) as (o' & Hd' & Ho').
    exists o'. split; [assumption|]. intros tail. rewrite <- Ho'. reflexivity.
  - cbn [app parse_args].
    rewrite (jstring_eqb_neq _ _ H1), (jstring_eqb_neq _ _ H2),
            (jstring_eqb_neq _ _ H3), (jstring_eqb_neq _ _ H4).
    destruct (jstring_eqb a (str "--no-backup")).
    { apply (IH (CliOptions (cli_prefix o) (cli_sourceDir o) false
                   (cli_cleanBackupsFlag o)) Hd). }
    destruct (jstring_eqb a (str "--clean-backups")).
    { apply (IH (CliOptions (cli_prefix o) (cli_sourceDir o) (cli_backup o) true)
                Hd). }
    apply (IH o Hd).
Qed.

(** When [--prefix] is the last argument and has no value, the bot is
    built with the prefix [tw-], not with the prefix [two-] of the command
    line. *)
Theorem main_prefix_without_value (pre : list jstring) :
  complete_args pre ->
  exists bot,
    (main (pre ++ [str "--prefix"]) = CleanBackups bot
     \/ main (pre ++ [str "--prefix"]) = RunBot bot)
    /\ prefix bot = str "tw-".
Proof.
  intros Hc. unfold main.
  destruct (parse_args_complete pre Hc cli_defaults
              ltac:(right; now exists (str "./"))) as (o' & Hd & Ho').
  rewrite Ho'. cbn [parse_args]. rewrite jstring_eqb_refl.
  unfold constructor_options. cbn [cli_prefix cli_sourceDir cli_cleanBackupsFlag].
  destruct (constructor_undefined (cli_sourceDir o') Hd) as (bot & Hb & Hp).
  rewrite Hb. exists bot. destruct (cli_cleanBackupsFlag o'); auto.
Qed.

End CommandLine.

(** * Splitting a class string *)

Section ClassList.

Lemma exec_at_whitespace (prev : option char) (s : jstring) :
  exec_at re_whitespace prev s =
  match s with
  | c :: rest =>
      if is_space c then Some (S (length (take_while is_space rest)), [])
      else None
  | [] => None
  end.
Proof.
  unfold exec_at, re_whitespace, Plus.
  rewrite rmatch_Seq, rmatch_Char. cbn [m_rest m_caps].
  destruct s as [|c rest]; [reflexivity|].
  destruct (is_space c); [|reflexivity].
  pose proof (take_drop_while is_space rest) as Hr.
  pose proof (take_while_all is_space rest) as Hall.
  pose proof (drop_while_stops is_space rest) as Hstop.
  remember (take_while is_space rest) as run.
  remember (drop_while is_space rest) as tail.
  subst rest. rewrite rmatch_star_char.
  erewrite greedy_max; [ | exact Hall | exact Hstop | reflexivity ].
  cbn [m_rest m_caps]. f_equal. f_equal.
  cbn [length]. rewrite length_app. lia.
Qed.

Lemma firstn_take_while (p : char -> bool) (s : jstring) :
  firstn (length (take_while p s)) s = take_while p s.
Proof.
  induction s as [|c s IH]; [reflexivity|]. simpl.
  destruct (p c); simpl; [now rewrite IH | reflexivity].
Qed.

(** The pieces of [split] that are not empty are the words of the text. *)
Lemma split_go_words (s : jstring) :
  forall prev acc skip,
    (0 < skip -> acc = []) ->
    forallb is_space (firstn skip s) = true ->
    filter nonempty (split_go re_whitespace prev s acc skip) = words_go acc s.
Proof.
  induction s as [|c s IH]; intros prev acc skip Hacc Hsp.
  - cbn [split_go words_go filter]. unfold nonempty. rewrite length_rev.
    now destruct acc.
  - cbn [split_go]. destruct skip as [|n].
    + rewrite exec_at_whitespace. cbn [words_go].
      destruct (is_space c) eqn:Ec.
      * cbn [filter]. unfold nonempty at 1. rewrite length_rev.
        destruct acc as [|a acc]; cbn [length Nat.ltb Nat.leb].
        -- apply IH; [reflexivity|]. rewrite firstn_take_while.
           apply take_while_all.
        -- f_equal. apply IH; [reflexivity|]. rewrite firstn_take_while.
           apply take_while_all.
      * apply IH; [intros F; inversion F | reflexivity].
    + rewrite (Hacc ltac:(lia)) in *. cbn [firstn forallb] in Hsp.
      apply andb_true_iff in Hsp as [Hc Hsp]. cbn [words_go]. rewrite Hc.
      apply IH; [reflexivity | assumption].
Qed.

Lemma class_list_words (s : jstring) : class_list s = words s.
Proof.
  unfold class_list, re_split, words. destruct s as [|c s].
  - rewrite exec_at_whitespace. reflexivity.
  - apply (split_go_words (c :: s) None [] 0); [reflexivity | reflexivity].
Qed.

Lemma words_go_tokens (s : jstring) :
  forall acc,
    forallb not_space acc = true ->
    Forall (fun t => is_token t = true) (words_go acc s).
Proof.
  assert (Htok : forall a acc,
             forallb not_space (a :: acc) = true -> is_token (rev (a :: acc)) = true).
  { intros a acc H. unfold is_token, nonempty. rewrite length_rev. cbn [length Nat.ltb Nat.leb andb].
    rewrite forallb_forall in *. intros x Hx. apply in_rev in Hx. now apply H. }
  induction s as [|c s IH]; intros acc Hacc; cbn [words_go].
  - destruct acc as [|a acc]; constructor; [now apply Htok | constructor].
  - destruct (is_space c) eqn:Ec.
    + destruct acc as [|a acc]; [now apply IH|].
      constructor; [now apply Htok | now apply IH].
    + apply IH. cbn [forallb]. unfold not_space at 1. now rewrite Ec.
Qed.

Lemma words_go_concat (s : jstring) :
  forall acc, concat (words_go acc s) = rev acc ++ filter not_space s.
Proof.
  induction s as [|c s IH]; intros acc; cbn [words_go filter].
  - destruct acc; cbn [concat rev app]; now rewrite ?app_nil_r.
  - unfold not_space at 1. destruct (is_space c); cbn [negb].
    + destruct acc as [|a acc]; [apply IH|].
      cbn [concat]. now rewrite IH.
    + rewrite IH. cbn [rev]. now rewrite <- app_assoc.
Qed.

Lemma words_go_token (t : jstring) :
  forall acc s,
    forallb not_space t = true ->
    words_go acc (t ++ s) = words_go (rev t ++ acc) s.
Proof.
  induction t as [|c t IH]; intros acc s Ht; [reflexivity|].
  cbn [forallb] in Ht. apply andb_true_iff in Ht as [Hc Ht].
  unfold not_space in Hc. apply negb_true_iff in Hc.
  cbn [app words_go]. rewrite Hc. rewrite IH by assumption.
  cbn [rev]. now rewrite <- app_assoc.
Qed.

Lemma is_token_inv (t : jstring) :
  is_token t = true -> t <> [] /\ forallb not_space t = true.
Proof.
  unfold is_token. intros H. apply andb_true_iff in H as [Hl Hs].
  split; [|exact Hs]. intros ->. cbv in Hl. discriminate.
Qed.

Lemma words_join (l : list jstring) :
  Forall (fun t => is_token t = true) l ->
  words (join (str " ") l) = l.
Proof.
  unfold words. induction 1 as [|t l Ht Hl IH]; [reflexivity|].
  apply is_token_inv in Ht as [Hne Hsp].
  assert (Hrev : exists a acc, rev t ++ [] = a :: acc).
  { rewrite app_nil_r. destruct (rev t) as [|a acc] eqn:E; [|eauto].
    apply (f_equal (@rev _)) in E. rewrite rev_involutive in E. now subst. }
  destruct Hrev as (a & acc & Hrev).
  destruct l as [|u l].
  - cbn [join]. rewrite <- (app_nil_r t) at 1.
    rewrite words_go_token by assumption. cbn [words_go].
    rewrite Hrev, <- Hrev, app_nil_r, rev_involutive. reflexivity.
  - change (join (str " ") (t :: u :: l))
      with (t ++ ch_space :: join (str " ") (u :: l)).
    rewrite words_go_token by assumption. cbn [words_go].
    change (is_space ch_space) with true. cbv iota.
    rewrite Hrev, <- Hrev, app_nil_r, rev_involutive. now rewrite IH.
Qed.

(** Every token of a class string is non-empty and free of white space;
    the tokens, in their order, are made of the characters of the class
    string that are not white space; and a class string that was split and
    rejoined with single spaces splits into the same tokens. *)
Theorem class_list_tokens (classString : jstring) :
  Forall (fun t => is_token t = true) (class_list classString)
  /\ concat (class_list classString) = filter not_space classString
  /\ class_list (join (str " ") (class_list classString))
     = class_list classString.
Proof.
  rewrite !class_list_words. unfold words at 1 2.
  split; [now apply words_go_tokens|].
  split; [now rewrite words_go_concat|].
  apply words_join. now apply words_go_tokens.
Qed.

(** Tokens joined with single spaces are split into the same tokens. *)
Theorem class_list_join (l : list jstring) :
  Forall (fun t => is_token t = true) l ->
  class_list (join (str " ") l) = l.
Proof. intros Hl. rewrite class_list_words. now apply words_join. Qed.

End ClassList.

(** * Instances of the properties above *)

Lemma processCssSelectors_twice_witness :
  forallb is_ident (prefix tw) = true
  /\ processCssSelectors tw (processCssSelectors tw (str ".btn, .tw-card{}"))
     = processCssSelectors tw (str ".btn, .tw-card{}").
Proof.
  split; [reflexivity|].
  exact (processCssSelectors_twice tw eq_refl (str ".btn, .tw-card{}")).
Defined.

Lemma addPrefixToClass_ignored_witness :
  In (str "swiper") (ignoreClasses tw)
  /\ addPrefixToClass tw (str "hover:swiper") = str "hover:swiper"
  /\ addPrefixToClass tw (str "hover:!swiper") = str "hover:!swiper".
Proof.
  assert (Hin : In (str "swiper") (ignoreClasses tw)) by (left; reflexivity).
  split; [exact Hin|].
  apply (addPrefixToClass_ignored tw (str "hover:") (str "swiper") Hin).
  - cbv. intuition discriminate.
  - intros r H. discriminate.
  - apply (chain_segment (str "hover") []); [|constructor].
    cbv. intuition discriminate.
Defined.

Lemma constructor_invariant_witness :
  constructor (Options (VString (str "two-")) VUndefined VUndefined None)
  = Return (Bot (str "two-") [str "swiper"; str "swiper-wrapper"; str "swiper-slide"]
              (str "info") (Stats 0 0 0 0))
  /\ forallb is_ident (str "two-") = true.
Proof.
  assert (H : constructor (Options (VString (str "two-")) VUndefined VUndefined None)
              = Return (Bot (str "two-")
                          [str "swiper"; str "swiper-wrapper"; str "swiper-slide"]
                          (str "info") (Stats 0 0 0 0)))
    by (vm_compute; reflexivity).
  split; [exact H|].
  exact (proj1 (proj2 (constructor_invariant _ _ H))).
Defined.

Lemma log_never_silent_witness :
  In (logLevel (Bot (str "tw-") [] (str "silent") (Stats 0 0 0 0))) logLevels
  /\ log (Bot (str "tw-") [] (str "silent") (Stats 0 0 0 0))
       (str "2024-01-01T00:00:00.000Z") (str "error") (str "failed")
     = Some (str "[" ++ str "2024-01-01T00:00:00.000Z" ++ str "] [ERROR] "
             ++ str "failed").
Proof.
  assert (Hin : In (logLevel (Bot (str "tw-") [] (str "silent") (Stats 0 0 0 0)))
                  logLevels) by (left; reflexivity).
  split; [exact Hin|].
  exact (proj1 (log_never_silent _ (str "2024-01-01T00:00:00.000Z") (str "failed")
                  Hin)).
Defined.

Lemma processContent_bot_witness :
  snd (processContent tw (str ".btn { @apply flex; }") (str ".css")) = tw.
Proof.
  exact (proj1 (proj2 (proj2 (proj2 (proj2 (proj2 (proj2 (proj2
           (processContent_bot tw (str ".btn { @apply flex; }") (str ".css")))))))))
           eq_refl).
Defined.

Lemma updateTailwindConfig_once_witness :
  ~ In ch_dollar (prefix tw)
  /\ updateTailwindConfig tw (Some (str "module.exports = {}"))
     = Some (config_replacement tw ++ str "}").
Proof.
  assert (Hd : ~ In ch_dollar (prefix tw)) by (cbv; intuition discriminate).
  split; [exact Hd|].
  exact (proj1 (proj2 (updateTailwindConfig_once tw
                         (Some (str "module.exports = {}"))))
           [] (str "}") eq_refl eq_refl eq_refl Hd).
Defined.

Lemma restore_path_of_backup_witness :
  ~ In ch_underscore (str "2024-01-01T00:00:00.000Z")
  /\ originalRelativePath ch_slash
       (backupName (str "src/my_file.css") (str "2024-01-01T00:00:00.000Z"))
     <> str "src/my_file.css".
Proof.
  assert (Hi : ~ In ch_underscore (str "2024-01-01T00:00:00.000Z"))
    by (cbv; intuition discriminate).
  split; [exact Hi|].
  apply (proj2 (proj2 (restore_path_of_backup ch_slash (str "src/my_file.css")
                         (str "2024-01-01T00:00:00.000Z") Hi))).
  cbv. intuition discriminate.
Defined.

Lemma main_default_prefix_witness :
  ~ In (str "--prefix") [str "--dir"; str "src"; str "--no-backup"]
  /\ (main [str "--dir"; str "src"; str "--no-backup"] = ShowHelp
      \/ exists bot,
           (main [str "--dir"; str "src"; str "--no-backup"] = TestLogic bot
            \/ main [str "--dir"; str "src"; str "--no-backup"] = CleanBackups bot
            \/ main [str "--dir"; str "src"; str "--no-backup"] = RunBot bot)
           /\ prefix bot = str "two-").
Proof.
  assert (Hn : ~ In (str "--prefix") [str "--dir"; str "src"; str "--no-backup"])
    by (cbv; intuition discriminate).
  split; [exact Hn|].
  exact (main_default_prefix _ Hn).
Defined.

Lemma main_prefix_without_value_witness :
  complete_args [str "--no-backup"]
  /\ exists bot,
       (main [str "--no-backup"; str "--prefix"] = CleanBackups bot
        \/ main [str "--no-backup"; str "--prefix"] = RunBot bot)
       /\ prefix bot = str "tw-".
Proof.
  assert (Hc : complete_args [str "--no-backup"])
    by (apply complete_other; [discriminate..|constructor]).
  split; [exact Hc|].
  exact (main_prefix_without_value [str "--no-backup"] Hc).
Defined.

Lemma class_list_join_witness :
  Forall (fun t => is_token t = true) [str "flex"; str "md:p-4"]
  /\ class_list (join (str " ") [str "flex"; str "md:p-4"])
     = [str "flex"; str "md:p-4"].
Proof.
  assert (Hl : Forall (fun t => is_token t = true) [str "flex"; str "md:p-4"])
    by (repeat constructor).
  split; [exact Hl|].
  exact (class_list_join _ Hl).
Defined.

(** * The shape of the matched regions *)

Section Regions.

Lemma derives_star_char (p : char -> bool) (s s' : mstate) :
  derives (Star (Char p)) s s' ->
  exists w, m_rest s = w ++ m_rest s' /\ forallb p w = true
            /\ m_caps s' = m_caps s.
Proof.
  remember (Star (Char p)) as r eqn:Er. intros D.
  induction D as [| | | | |a s|a s s1 s2 D1 _ D2 IH| |]; try discriminate.
  - now exists [].
  - injection Er as ->. destruct (IH eq_refl) as (w & E & Hw & Hc).
    apply derives_char_inv in D1 as (c & rest & Hr & Hp & ->).
    cbn [m_rest m_caps] in *. exists (c :: w). rewrite Hr, E.
    cbn [forallb]. now rewrite Hp, Hw.
Qed.

Lemma derives_plus_char (p : char -> bool) (s s' : mstate) :
  derives (Plus (Char p)) s s' ->
  exists w, m_rest s = w ++ m_rest s' /\ w <> [] /\ forallb p w = true
            /\ m_caps s' = m_caps s.
Proof.
  unfold Plus. intros D. apply derives_seq_inv in D as (s1 & D1 & D).
  apply derives_char_inv in D1 as (c & rest & Hr & Hp & ->).
  apply derives_star_char in D as (w & E & Hw & Hc).
  cbn [m_rest m_caps] in *. exists (c :: w). rewrite Hr, E.
  cbn [forallb]. rewrite Hp, Hw. repeat split; [discriminate | assumption].
Qed.

Lemma ci_char_lower (c x : char) :
  ((x =? c)%N || (is_lower c && (x =? c - 32)%N)
   || (is_upper c && (x =? c + 32)%N)) = true ->
  lower_ascii x = lower_ascii c.
Proof.
  unfold lower_ascii, is_lower, is_upper, in_range. intros H.
  apply orb_true_iff in H as [H|H]; [apply orb_true_iff in H as [H|H]|].
  - apply N.eqb_eq in H. now subst.
  - apply andb_true_iff in H as [Hl H]. apply N.eqb_eq in H.
    apply andb_true_iff in Hl as [H1 H2].
    apply N.leb_le in H1, H2. subst x.
    replace ((65 <=? c - 32)%N && (c - 32 <=? 90)%N) with true
      by (symmetry; apply andb_true_iff; split; apply N.leb_le; lia).
    replace ((65 <=? c)%N && (c <=? 90)%N) with false
      by (symmetry; apply andb_false_iff; right; apply N.leb_gt; lia).
    lia.
  - apply andb_true_iff in H as [Hu H]. apply N.eqb_eq in H. rewrite Hu.
    apply andb_true_iff in Hu as [H1 H2].
    apply N.leb_le in H1, H2. subst x.
    replace ((65 <=? c + 32)%N && (c + 32 <=? 90)%N) with false
      by (symmetry; apply andb_false_iff; right; apply N.leb_gt; lia).
    reflexivity.
Qed.

Lemma derives_lit_ci (w : jstring) :
  forall s s',
    derives (lit_ci w) s s' ->
    exists kw, m_rest s = kw ++ m_rest s'
               /\ map lower_ascii kw = map lower_ascii w
               /\ m_caps s' = m_caps s.
Proof.
  unfold lit_ci. induction w as [|c w IH]; intros s s' D.
  - inversion D; subst. now exists [].
  - assert (Step : forall s1, derives (ci_char c) s s1 ->
                     exists x, m_rest s = x :: m_rest s1
                               /\ lower_ascii x = lower_ascii c
                               /\ m_caps s1 = m_caps s).
    { intros s1 D1. apply derives_char_inv in D1 as (x & rest & Hr & Hp & ->).
      exists x. cbn [m_rest m_caps]. repeat split; [assumption|].
      now apply ci_char_lower. }
    destruct w as [|d w].
    + cbn [map seq_of] in D. destruct (Step s' D) as (x & E & Hx & Hc).
      exists [x]. cbn [map app]. now rewrite Hx.
    + change (seq_of (map ci_char (c :: d :: w)))
        with (Seq (ci_char c) (seq_of (map ci_char (d :: w)))) in D.
      apply derives_seq_inv in D as (s1 & D1 & D).
      destruct (Step s1 D1) as (x & E & Hx & Hc).
      destruct (IH s1 s' D) as (kw & E' & Hkw & Hc').
      exists (x :: kw). rewrite E, E'. cbn [map app]. rewrite Hx, Hkw.
      repeat split. congruence.
Qed.

Lemma derives_lit (w : jstring) :
  forall s s',
    derives (lit w) s s' ->
    m_rest s = w ++ m_rest s' /\ m_caps s' = m_caps s.
Proof.
  unfold lit. induction w as [|c w IH]; intros s s' D.
  - inversion D; subst. now split.
  - assert (Step : forall s1, derives (lit_char c) s s1 ->
                     m_rest s = c :: m_rest s1 /\ m_caps s1 = m_caps s).
    { intros s1 D1. apply derives_char_inv in D1 as (x & rest & Hr & Hp & ->).
      apply N.eqb_eq in Hp. subst x. now split. }
    destruct w as [|d w].
    + cbn [map seq_of] in D. exact (Step s' D).
    + change (seq_of (map lit_char (c :: d :: w)))
        with (Seq (lit_char c) (seq_of (map lit_char (d :: w)))) in D.
      apply derives_seq_inv in D as (s1 & D1 & D).
      destruct (Step s1 D1) as (E & Hc).
      destruct (IH s1 s' D) as (E' & Hc').
      rewrite E, E'. split; [reflexivity | congruence].
Qed.

(** A capturing group around a pattern without groups records what the
    pattern read. *)
Lemma derives_group_reads (i : nat) (a : regex) (s s' : mstate) :
  derives (Group i a) s s' -> group_free a = true ->
  exists w s1, derives a s s1 /\ m_rest s1 = m_rest s'
               /\ m_rest s = w ++ m_rest s'
               /\ m_caps s' = (i, w) :: m_caps s.
Proof.
  intros D G. apply derives_group_inv in D as (s1 & D & ->).
  pose proof (derives_caps a s s1 D G) as Hc.
  destruct (derives_reads a s s1 D) as [w E].
  exists w, s1. cbn [m_rest m_caps]. repeat split; [assumption..|].
  rewrite Hc. f_equal. f_equal.
  destruct s as [p r c], s1 as [p1 r1 c1]. cbn [m_rest] in E. subst r.
  apply consumed_app.
Qed.

(** What a match attempt returns comes from a derivation that reads
    exactly the matched text. *)
Lemma exec_at_derives (r : regex) (prev : option char) (m rest : jstring)
    (caps : list (nat * jstring)) :
  exec_at r prev (m ++ rest) = Some (length m, caps) ->
  exists s', derives r (MState prev (m ++ rest) []) s'
             /\ m_rest s' = rest /\ m_caps s' = caps.
Proof.
  unfold exec_at. destruct (rmatch _ _ _) as [f|] eqn:E; [|discriminate].
  apply rmatch_sound in E as (s' & D & Hf). injection Hf as ->.
  intros H. injection H as Hl Hc. exists f. repeat split; [assumption| |assumption].
  destruct (derives_reads _ _ _ D) as [w Ew]. cbn [m_rest] in Ew.
  assert (Hlen : length w = length m).
  { apply (f_equal (@length _)) in Ew. rewrite !length_app in Ew.
    rewrite length_app in Hl. lia. }
  symmetry in Ew. apply app_same_length in Ew; [|assumption]. tauto.
Qed.

(** The regions of the pattern of [processHtmlClasses]. *)
Lemma htmlClass_shape (prev : option char) (m rest : jstring)
    (caps : list (nat * jstring)) :
  exec_at re_htmlClass prev (m ++ rest) = Some (length m, caps) ->
  exists kw ws1 ws2 o q,
    m = (kw ++ ws1 ++ ch_eq :: ws2 ++ [o]) ++ first_capture caps ++ [q]
    /\ map lower_ascii kw = map lower_ascii (str "class")
    /\ forallb is_space ws1 = true /\ forallb is_space ws2 = true
    /\ is_quote o = true /\ is_quote q = true.
Proof.
  intros H. apply exec_at_derives in H as (s' & D & Hr & Hc).
  unfold re_htmlClass in D. cbn [seq_of] in D.
  apply derives_seq_inv in D as (s1 & D1 & D).
  apply derives_seq_inv in D as (s2 & D2 & D).
  apply derives_seq_inv in D as (s3 & D3 & D).
  apply derives_seq_inv in D as (s4 & D4 & D).
  apply derives_seq_inv in D as (s5 & D5 & D).
  apply derives_seq_inv in D as (s6 & D6 & D).
  apply derives_lit_ci in D1 as (kw & E1 & Hkw & C1).
  apply derives_star_char in D2 as (ws1 & E2 & Hw1 & C2).
  apply derives_char_inv in D3 as (e & r3 & E3 & He & ->).
  apply derives_star_char in D4 as (ws2 & E4 & Hw2 & C4).
  apply derives_char_inv in D5 as (o & r5 & E5 & Ho & ->).
  apply derives_group_reads in D6 as (c & s6' & _ & _ & E6 & C6); [|reflexivity].
  apply derives_char_inv in D as (q & r7 & E7 & Hq & ->).
  apply N.eqb_eq in He. subst e.
  cbn [m_rest m_caps] in *. subst rest.
  rewrite C6, C4, C2, C1 in Hc. subst caps. cbn [first_capture capture Nat.eqb].
  exists kw, ws1, ws2, o, q. repeat split; try assumption.
  rewrite E2, E3, E4, E5, E6, E7 in E1.
  assert (E : m ++ r7
              = (((kw ++ ws1 ++ ch_eq :: ws2 ++ [o]) ++ c ++ [q]) ++ r7)).
  { rewrite E1. rewrite <- !app_assoc. cbn [app]. rewrite <- !app_assoc.
    reflexivity. }
  apply app_inv_tail in E. exact E.
Qed.

(** The regions of the pattern of [processJsClasses]. *)
Lemma jsClassName_shape (prev : option char) (m rest : jstring)
    (caps : list (nat * jstring)) :
  exec_at re_jsClassName prev (m ++ rest) = Some (length m, caps) ->
  exists kw ws1 ws2 o q,
    m = (kw ++ ws1 ++ ch_eq :: ws2 ++ [o]) ++ first_capture caps ++ [q]
    /\ map lower_ascii kw = map lower_ascii (str "className")
    /\ forallb is_space ws1 = true /\ forallb is_space ws2 = true
    /\ js_open o = true /\ js_close q = true.
Proof.
  intros H. apply exec_at_derives in H as (s' & D & Hr & Hc).
  unfold re_jsClassName in D. cbn [seq_of] in D.
  apply derives_seq_inv in D as (s1 & D1 & D).
  apply derives_seq_inv in D as (s2 & D2 & D).
  apply derives_seq_inv in D as (s3 & D3 & D).
  apply derives_seq_inv in D as (s4 & D4 & D).
  apply derives_seq_inv in D as (s5 & D5 & D).
  apply derives_seq_inv in D as (s6 & D6 & D).
  apply derives_lit_ci in D1 as (kw & E1 & Hkw & C1).
  apply derives_star_char in D2 as (ws1 & E2 & Hw1 & C2).
  apply derives_char_inv in D3 as (e & r3 & E3 & He & ->).
  apply derives_star_char in D4 as (ws2 & E4 & Hw2 & C4).
  apply derives_char_inv in D5 as (o & r5 & E5 & Ho & ->).
  apply derives_group_reads in D6 as (c & s6' & _ & _ & E6 & C6); [|reflexivity].
  apply derives_char_inv in D as (q & r7 & E7 & Hq & ->).
  apply N.eqb_eq in He. subst e.
  cbn [m_rest m_caps] in *. subst rest.
  rewrite C6, C4, C2, C1 in Hc. subst caps. cbn [first_capture capture Nat.eqb].
  exists kw, ws1, ws2, o, q. repeat split; try assumption.
  rewrite E2, E3, E4, E5, E6, E7 in E1.
  assert (E : m ++ r7
              = (((kw ++ ws1 ++ ch_eq :: ws2 ++ [o]) ++ c ++ [q]) ++ r7)).
  { rewrite E1. rewrite <- !app_assoc. cbn [app]. rewrite <- !app_assoc.
    reflexivity. }
  apply app_inv_tail in E. exact E.
Qed.

(** The regions of the pattern of [processCssSelectors]. *)
Lemma cssSelector_shape (prev : option char) (m rest : jstring)
    (caps : list (nat * jstring)) :
  exec_at re_cssSelector prev (m ++ rest) = Some (length m, caps) ->
  m = ch_dot :: first_capture caps
  /\ first_capture caps <> [] /\ forallb is_ident (first_capture caps) = true.
Proof.
  intros H. apply exec_at_derives in H as (s' & D & Hr & Hc).
  unfold re_cssSelector in D. cbn [seq_of] in D.
  apply derives_seq_inv in D as (s1 & D1 & D).
  apply derives_seq_inv in D as (s2 & D2 & D).
  apply derives_assert_inv in D1 as [-> _].
  apply derives_char_inv in D2 as (d & r2 & E2 & Hd & ->).
  apply N.eqb_eq in Hd. subst d.
  apply derives_group_reads in D as (c & s3 & D & R3 & E3 & C3); [|reflexivity].
  apply derives_plus_char in D as (w & Ew & Hne & Hw & _).
  cbn [m_rest m_caps] in *. subst rest. subst caps. rewrite C3.
  cbn [first_capture capture Nat.eqb].
  assert (c = w).
  { rewrite Ew, R3 in E3. apply app_inv_tail in E3. congruence. }
  subst w. repeat split; try assumption.
  rewrite E3 in E2.
  change (m ++ m_rest s' = (ch_dot :: c) ++ m_rest s') in E2.
  now apply app_inv_tail in E2.
Qed.

(** The regions of the pattern of [processApplyDirectives]. *)
Lemma apply_shape (prev : option char) (m rest : jstring)
    (caps : list (nat * jstring)) :
  exec_at re_apply prev (m ++ rest) = Some (length m, caps) ->
  exists ws semi,
    m = str "@apply" ++ ws ++ first_capture caps ++ semi
    /\ ws <> [] /\ forallb is_space ws = true
    /\ first_capture caps <> []
    /\ forallb not_terminator (first_capture caps) = true
    /\ (semi = [] \/ semi = [ch_semi]).
Proof.
  intros H. apply exec_at_derives in H as (s' & D & Hr & Hc).
  unfold re_apply in D. cbn [seq_of] in D.
  apply derives_seq_inv in D as (s1 & D1 & D).
  apply derives_seq_inv in D as (s2 & D2 & D).
  apply derives_seq_inv in D as (s3 & D3 & D).
  apply derives_lit in D1 as (E1 & C1).
  apply derives_plus_char in D2 as (ws & E2 & Hne & Hws & C2).
  apply derives_group_reads in D3 as (c & s3' & D3 & R3 & E3 & C3); [|reflexivity].
  apply derives_plus_char in D3 as (w & Ew & Hwne & Hw & _).
  assert (c = w).
  { rewrite Ew, R3 in E3. apply app_inv_tail in E3. congruence. }
  subst w.
  assert (Hsemi : exists semi, m_rest s3 = semi ++ m_rest s'
                               /\ (semi = [] \/ semi = [ch_semi])
                               /\ m_caps s' = m_caps s3).
  { unfold Opt in D. inversion D as [| | |a b s0 s0' Da|a b s0 s0' Db| | | |]; subst.
    - apply derives_char_inv in Da as (x & r & Ex & Hx & ->).
      apply N.eqb_eq in Hx. subst x. exists [ch_semi].
      cbn [m_rest m_caps]. repeat split; [assumption | now right].
    - inversion Db; subst. exists []. repeat split. now left. }
  destruct Hsemi as (semi & E4 & Hsemi & C4).
  cbn [m_rest m_caps] in *. subst rest.
  rewrite C4, C3, C2, C1 in Hc. subst caps. cbn [first_capture capture Nat.eqb].
  exists ws, semi. repeat split; try assumption.
  rewrite E2, E3, E4 in E1.
  assert (E : m ++ m_rest s' = (str "@apply" ++ ws ++ c ++ semi) ++ m_rest s').
  { rewrite E1. now rewrite <- !app_assoc. }
  now apply app_inv_tail in E.
Qed.

End Regions.

(** * The extractors, region by region *)

Section Splicing.

Variable r : regex.
Variable f : jstring -> jstring -> jstring.
Variable R : jstring -> jstring -> jstring -> Prop.

Hypothesis callback_region :
  forall prev rest m caps,
    exec_at r prev (m ++ rest) = Some (length m, caps) ->
    R m (first_capture caps) (f m (first_capture caps)).

(** A global replace copies the code units between the matches of the
    text and puts the result of the callback in place of each match. *)
Lemma scan_spliced :
  forall s prev skip,
    skip <= length s ->
    spliced R (scan r prev s skip) (skipn skip s)
      (flat_map (render f) (scan r prev s skip)).
Proof.
  induction s as [|c s IH]; intros prev skip Hs.
  - destruct skip; [|simpl in Hs; lia]. simpl.
    destruct (exec_at r prev []) as [[len caps]|] eqn:E; [|constructor].
    pose proof (exec_at_length _ _ _ _ _ E) as Hl. simpl in Hl.
    assert (len = 0) by lia. subst len. cbn [flat_map render].
    apply (sp_region R [] caps (f [] (first_capture caps)) [] [] []);
      [|constructor].
    now apply (callback_region prev []).
  - destruct skip as [|n]; cbn [scan].
    + destruct (exec_at r prev (c :: s)) as [[[|n] caps]|] eqn:E.
      * cbn [flat_map render skipn].
        apply (sp_region R [] caps (f [] (first_capture caps))
                 (Lit c :: scan r (Some c) s 0) (c :: s)).
        -- now apply (callback_region prev (c :: s)).
        -- cbn [app]. constructor. apply (IH (Some c) 0). lia.
      * pose proof (exec_at_length _ _ _ _ _ E) as Hl.
        cbn [flat_map render skipn].
        rewrite <- (firstn_skipn (S n) (c :: s)) at 2.
        apply sp_region.
        -- apply (callback_region prev (skipn (S n) (c :: s))).
           rewrite firstn_skipn, firstn_length_le by assumption. exact E.
        -- apply (IH (Some c) n). simpl in Hl. lia.
      * cbn [flat_map render skipn app]. constructor. apply (IH (Some c) 0). lia.
    + apply (IH (Some c) n). simpl in Hs. lia.
Qed.

Lemma replace_all_spliced (s : jstring) :
  spliced R (matches r s) s (replace_all r f s).
Proof. apply (scan_spliced s None 0). lia. Qed.

End Splicing.



(** When [R] determines the replacement of a region, the cut of the text
    determines the whole result. *)
Lemma spliced_unique (R : jstring -> jstring -> jstring -> Prop)
    (chunks : list chunk) (s t : jstring) :
  (forall m c a b, R m c a -> R m c b -> a = b) ->
  spliced R chunks s t ->
  forall s' t', spliced R chunks s' t' -> s = s' /\ t = t'.
Proof.
  intros HR. induction 1 as [|x chunks s t _ IH|m caps m' chunks s t Hm _ IH];
    intros s' t' H'; inversion H'; subst.
  - now split.
  - match goal with
    | H : spliced R chunks _ _ |- _ => destruct (IH _ _ H) as [-> ->]
    end.
    now split.
  - match goal with
    | H : spliced R chunks _ _ |- _ => destruct (IH _ _ H) as [-> ->]
    end.
    match goal with
    | H : R m (first_capture caps) _ |- _ => now rewrite (HR _ _ _ _ Hm H)
    end.
Qed.

(** So the text rebuilt from the matches is the only one that [spliced]
    accepts. *)
Lemma spliced_exact (r : regex) (f : jstring -> jstring -> jstring)
    (R : jstring -> jstring -> jstring -> Prop) :
  (forall prev rest m caps,
      exec_at r prev (m ++ rest) = Some (length m, caps) ->
      R m (first_capture caps) (f m (first_capture caps))) ->
  (forall m c a b, R m c a -> R m c b -> a = b) ->
  forall s t, spliced R (matches r s) s t <-> t = replace_all r f s.
Proof.
  intros HR Hfun s t. split.
  - intros H.
    now destruct (spliced_unique R _ _ _ Hfun H _ _
                    (replace_all_spliced r f R HR s)).
  - intros ->. now apply replace_all_spliced.
Qed.

Section AttributeValues.

Variable rewrite : jstring -> jstring.

Lemma rejoined_nil : rejoined rewrite [] = [].
Proof. reflexivity. Qed.

(** [m.replace(c, rejoined)] when the value is the first place where the
    class string occurs and the rejoined tokens have no dollar sign. *)
Lemma string_replace_value (head c tail : jstring) :
  value_first head c ->
  ~ In ch_dollar (rejoined rewrite c) ->
  string_replace (head ++ c ++ tail) c (rejoined rewrite c)
  = head ++ rejoined rewrite c ++ tail.
Proof.
  intros [->|Hinc] Hd; unfold string_replace.
  - rewrite rejoined_nil. cbn [app].
    rewrite split_at_first_start by (now destruct (head ++ tail)).
    reflexivity.
  - assert (Hc : c <> []).
    { intros ->. rewrite app_nil_r in Hinc.
      destruct head; discriminate. }
    rewrite (split_at_first_here c tail Hc head Hinc).
    now rewrite get_substitution_plain.
Qed.

Lemma attribute_region_of_shape (keyword : jstring)
    (opening closing : char -> bool) (m c : jstring) :
  (exists kw ws1 ws2 o q,
      m = (kw ++ ws1 ++ ch_eq :: ws2 ++ [o]) ++ c ++ [q]
      /\ map lower_ascii kw = map lower_ascii keyword
      /\ forallb is_space ws1 = true /\ forallb is_space ws2 = true
      /\ opening o = true /\ closing q = true) ->
  attribute_region keyword opening closing rewrite m c
    (string_replace m c (rejoined rewrite c)).
Proof.
  intros (kw & ws1 & ws2 & o & q & -> & Hkw & H1 & H2 & Ho & Hq).
  split; [reflexivity|].
  exists kw, ws1, ws2, o, q. repeat split; try assumption.
  intros Hv Hd. now apply string_replace_value.
Qed.

End AttributeValues.

Section Frame.

Variable this : TailwindPrefixBot.

Lemma htmlClass_region (prev : option char) (rest m : jstring)
    (caps : list (nat * jstring)) :
  exec_at re_htmlClass prev (m ++ rest) = Some (length m, caps) ->
  attribute_region (str "class") is_quote is_quote (addPrefixToClass this)
    m (first_capture caps) (fst (htmlClass_callback this m (first_capture caps))).
Proof.
  intros E. apply attribute_region_of_shape. now apply htmlClass_shape in E.
Qed.

Lemma jsClassName_region (prev : option char) (rest m : jstring)
    (caps : list (nat * jstring)) :
  exec_at re_jsClassName prev (m ++ rest) = Some (length m, caps) ->
  className_region (addPrefixToClass this)
    m (first_capture caps) (jsClass_callback this m (first_capture caps)).
Proof.
  intros E. unfold className_region, jsClass_callback, dynamic.
  destruct (includes _ _ || includes _ _); [reflexivity|].
  apply attribute_region_of_shape. now apply jsClassName_shape in E.
Qed.

Lemma cssSelector_region_exact (prev : option char) (rest m : jstring)
    (caps : list (nat * jstring)) :
  exec_at re_cssSelector prev (m ++ rest) = Some (length m, caps) ->
  selector_region this m (first_capture caps)
    (cssSelector_callback this m (first_capture caps)).
Proof.
  intros E. apply cssSelector_shape in E as (Hm & Hne & Hid).
  repeat split; try assumption.
  unfold cssSelector_callback.
  destruct (array_includes _ _); [reflexivity|].
  now destruct (startsWith _ _).
Qed.

Lemma apply_region_exact (prev : option char) (rest m : jstring)
    (caps : list (nat * jstring)) :
  exec_at re_apply prev (m ++ rest) = Some (length m, caps) ->
  apply_region this m (first_capture caps)
    (apply_callback this m (first_capture caps)).
Proof.
  intros E. split; [now apply apply_shape in E | reflexivity].
Qed.

Lemma attribute_region_functional (keyword : jstring)
    (opening closing : char -> bool) (rewrite : jstring -> jstring)
    (m c a b : jstring) :
  attribute_region keyword opening closing rewrite m c a ->
  attribute_region keyword opening closing rewrite m c b -> a = b.
Proof. intros [-> _] [-> _]. reflexivity. Qed.

Lemma className_region_functional (rewrite : jstring -> jstring)
    (m c a b : jstring) :
  className_region rewrite m c a -> className_region rewrite m c b -> a = b.
Proof.
  unfold className_region. destruct (dynamic c).
  - intros -> ->. reflexivity.
  - apply attribute_region_functional.
Qed.

Lemma selector_region_functional (m c a b : jstring) :
  selector_region this m c a -> selector_region this m c b -> a = b.
Proof. intros (_ & _ & _ & ->) (_ & _ & _ & ->). reflexivity. Qed.

Lemma apply_region_functional (m c a b : jstring) :
  apply_region this m c a -> apply_region this m c b -> a = b.
Proof. intros [_ ->] [_ ->]. reflexivity. Qed.

(** C4. Each extractor cuts the text at the actual matches of its
    pattern, copies every code unit between them and rewrites the matched
    regions only: its result is the one text that differs from the input
    in these regions as follows. A [class] region, and a [className] region
    whose value is not dynamic, becomes [m.replace(c, tokens rejoined)]:
    the keyword, the equals sign, the white space and both delimiters are
    kept and the value becomes the rejoined tokens whenever the value is
    the first place where the class string occurs in the region and the
    rejoined tokens have no dollar sign. A dynamic [className] region is
    copied. A selector region [.c] stays or becomes [.] + prefix + [c]. An
    [@apply] region is rebuilt as [@apply ] + its tokens + [;], and
    [processApplyDirectives] then reduces every run of semicolons of the
    whole text to one, inside or outside the regions. *)
Theorem extractors_frame (content : jstring) :
  (forall t,
      spliced (attribute_region (str "class") is_quote is_quote
                 (addPrefixToClass this))
        (matches re_htmlClass content) content t
      <-> t = fst (processHtmlClasses this content))
  /\ (forall t,
         spliced (className_region (addPrefixToClass this))
           (matches re_jsClassName content) content t
         <-> t = processJsClasses this content)
  /\ (forall t,
         spliced (selector_region this) (matches re_cssSelector content) content t
         <-> t = processCssSelectors this content)
  /\ (forall t,
         spliced (apply_region this) (matches re_apply content) content t
         <-> t = apply_substitute this content)
  /\ processApplyDirectives this content = squeeze (apply_substitute this content).
Proof.
  split; [|split; [|split; [|split]]].
  - apply (spliced_exact re_htmlClass
             (fun m c => fst (htmlClass_callback this m c))).
    + intros prev rest m caps. apply htmlClass_region.
    + apply attribute_region_functional.
  - apply (spliced_exact re_jsClassName (jsClass_callback this)).
    + intros prev rest m caps. apply jsClassName_region.
    + apply className_region_functional.
  - apply (spliced_exact re_cssSelector (cssSelector_callback this)).
    + intros prev rest m caps. apply cssSelector_region_exact.
    + apply selector_region_functional.
  - apply (spliced_exact re_apply (apply_callback this)).
    + intros prev rest m caps. apply apply_region_exact.
    + apply apply_region_functional.
  - apply collapse_semicolons_squeeze.
Qed.

End Frame.

(** * White space inside an attribute value *)

Section AttributeWhitespace.

Variable this : TailwindPrefixBot.


End AttributeWhitespace.



(** * The argument of the constructor *)

Section ConstructorArgument.







End ConstructorArgument.

